(** * Extended base oversampler of sklearnext (over_sampling/base.py)

    A shallow embedding of [_generate_classes_stats] and of
    [ExtendedBaseOverSampler._sample].  Floats are modelled as rationals
    ([Q]); a matrix cell is a number or NaN.  The sampler object is a
    configuration plus the mutable attributes that [_sample] writes
    ([ratio_], [n_overasmpled_groups_]); Python exceptions are the [Err]
    branch of a state-and-error monad that keeps the state reached at the
    raise (Python does not roll attribute assignments back).  The abstract
    method [_partial_sample] is a Section variable: it reads the current
    [self.ratio_] and may raise.  Line 93 ([self.random_state_ =
    check_random_state(self.random_state)]) is kept for the exception it
    may raise; the random generator it returns only feeds the derived
    sampler, which is abstract here, and is not modelled. *)

From Stdlib Require Import List ZArith QArith Qround Qabs Bool Lia Lqa.
Import ListNotations.

Open Scope Z_scope.

(** ** Values *)

(** A cell of the float matrix [np.column_stack((X, y))]. *)
Inductive cell : Type :=
| Num (q : Q)
| NaN.

(** Cell equality as pandas' [merge] matches keys: numbers by value,
    NaN with NaN. *)
Definition cell_eqb (a b : cell) : bool :=
  match a, b with
  | Num p, Num q => Qeq_bool p q
  | NaN, NaN => true
  | _, _ => false
  end.

Definition is_nan (c : cell) : bool :=
  match c with NaN => true | Num _ => false end.

(** Python exceptions raised on the paths we model. *)
Inductive error : Type :=
| ValueError
| IndexError
| KeyError
| SamplerError (code : nat).  (** whatever [_partial_sample] raises *)

Inductive res (A : Type) : Type :=
| Ok (a : A)
| Err (e : error).
Arguments Ok {A} a.
Arguments Err {A} e.

(** [a < b] on floats. *)
Definition Qltb (a b : Q) : bool := negb (Qle_bool b a).

(** Python's [int(x)] on a float: truncation toward zero. *)
Definition py_int (q : Q) : Z := Z.quot (Qnum q) (Zpos (Qden q)).

(** Association lists, the dicts of the source (insertion ordered). *)
Fixpoint assoc {B : Type} (k : Z) (l : list (Z * B)) : option B :=
  match l with
  | [] => None
  | (k', v) :: l' => if Z.eqb k k' then Some v else assoc k l'
  end.

(** ** [collections.Counter] *)

Fixpoint counter_add (c : list (Z * Z)) (l : Z) : list (Z * Z) :=
  match c with
  | [] => [(l, 1)]
  | (l', n) :: c' =>
      if Z.eqb l l' then (l', n + 1) :: c' else (l', n) :: counter_add c' l
  end.

Definition Counter (y : list Z) : list (Z * Z) := fold_left counter_add y [].

(** [counter[label]]: a missing key counts 0. *)
Definition counter_get (c : list (Z * Z)) (l : Z) : Z :=
  match assoc l c with Some n => n | None => 0 end.

(** ** [_generate_classes_stats] (lines 17-28) *)

Definition _generate_classes_stats (y : list Z) (majority_label : Z)
    (imbalance_ratio_threshold : Q) (k_neighbors : option Z)
    : bool * list (Z * Q) :=
  let counter := Counter y in
  let cmaj := counter_get counter majority_label in
  let stats :=
    map (fun '(label, n_samples) => (label, ((inject_Z cmaj / inject_Z n_samples)%Q, n_samples)))
        (filter (fun '(label, _) => negb (Z.eqb label majority_label)) counter) in
  let include_group :=
    existsb (fun '(_, (ir, n_samples)) =>
               match k_neighbors with
               | Some k => Qltb ir imbalance_ratio_threshold && Z.ltb k n_samples
               | None => Qltb ir imbalance_ratio_threshold
               end) stats in
  let modified_imbalance_ratios :=
    map (fun '(label, n_samples) =>
           (label, (inject_Z (cmaj + 1) / inject_Z (n_samples + 1))%Q))
        (filter (fun '(label, _) => negb (Z.eqb label majority_label)) counter) in
  (include_group, modified_imbalance_ratios).

(** ** Oversampling weights (lines 140-146) *)

(** [Series.sum()] skips NaN. *)
Fixpoint sum_defined (l : list (option Q)) : Q :=
  match l with
  | [] => 0%Q
  | Some q :: l' => (q + sum_defined l')%Q
  | None :: l' => sum_defined l'
  end.

(** [imbalance_ratios.apply(lambda ratio: ratio.get(label, np.nan))],
    divided by its sum; [None] is NaN and stays NaN. *)
Definition label_weights (label : Z) (imbalance_ratios : list (list (Z * Q)))
    : list (option Q) :=
  let lw := map (fun ratio => assoc label ratio) imbalance_ratios in
  let s := sum_defined lw in
  map (option_map (fun w => (w / s)%Q)) lw.

(** The columns of the [weights] frame, one per minority label. *)
Definition weights_columns (minority_labels : list Z)
    (imbalance_ratios : list (list (Z * Q))) : list (Z * list (option Q)) :=
  map (fun label => (label, label_weights label imbalance_ratios)) minority_labels.

(** [weights.iterrows()]: an empty frame (no minority label) has no row. *)
Definition weights_iterrows (cols : list (Z * list (option Q))) (n : nat)
    : list (list (Z * option Q)) :=
  match cols with
  | [] => []
  | _ => map (fun i => map (fun '(label, col) => (label, nth i col None)) cols) (seq 0 n)
  end.

(** ** Ratio of a group (lines 157-158)

    [{label: (int(n_samples * weight[label]) if label != majority_label
    else n_samples) for label, n_samples in initial_ratio.items()}];
    [int] of NaN raises [ValueError]. *)
Fixpoint group_ratio (majority_label : Z) (initial_ratio : list (Z * Z))
    (weight : list (Z * option Q)) : res (list (Z * Z)) :=
  match initial_ratio with
  | [] => Ok []
  | (label, n_samples) :: rest =>
      let v := if Z.eqb label majority_label then Ok n_samples
               else match assoc label weight with
                    | Some (Some w) => Ok (py_int (inject_Z n_samples * w))
                    | Some None => Err ValueError
                    | None => Err KeyError
                    end in
      match v with
      | Err e => Err e
      | Ok v =>
          match group_ratio majority_label rest weight with
          | Err e => Err e
          | Ok r => Ok ((label, v) :: r)
          end
      end
  end.

(** ** Grouping by the categorical columns (lines 125-137, 161, 179-180) *)

(** A row of [df]: the feature cells and the label. *)
Definition df_row : Type := (list cell * Z)%type.

Definition row_key (categorical_cols : list Z) (row : list cell) : list cell :=
  map (fun j => nth (Z.to_nat j) row NaN) categorical_cols.

Fixpoint key_eqb (a b : list cell) : bool :=
  match a, b with
  | [], [] => true
  | x :: a', y :: b' => cell_eqb x y && key_eqb a' b'
  | _, _ => false
  end.

(** The keys of [df.groupby(categorical_cols)]: distinct value tuples,
    keys holding a NaN dropped (pandas' default [dropna=True]).  Pandas
    sorts the keys; they are kept here in discovery order, which only
    changes the order of the output rows. *)
Definition group_keys (categorical_cols : list Z) (df : list df_row)
    : list (list cell) :=
  fold_left (fun acc '(row, _) =>
               let k := row_key categorical_cols row in
               if existsb is_nan k || existsb (key_eqb k) acc then acc
               else acc ++ [k]) df [].

(** [pd.merge(df, keys)]: the rows of [df] whose key matches. *)
Definition merge_rows (categorical_cols : list Z) (df : list df_row)
    (matches : list cell -> bool) : list df_row :=
  filter (fun '(row, _) => matches (row_key categorical_cols row)) df.

Definition group_labels (categorical_cols : list Z) (df : list df_row)
    (k : list cell) : list Z :=
  map snd (merge_rows categorical_cols df (key_eqb k)).

Definition mem_col (j : Z) (cols : list Z) : bool := existsb (Z.eqb j) cols.

(** [.drop(columns=categorical_cols)] on the feature part of a row. *)
Fixpoint drop_cols_from (categorical_cols : list Z) (j : Z) (row : list cell)
    : list cell :=
  match row with
  | [] => []
  | c :: row' =>
      if mem_col j categorical_cols then drop_cols_from categorical_cols (j + 1) row'
      else c :: drop_cols_from categorical_cols (j + 1) row'
  end.

Definition drop_cols (categorical_cols : list Z) (row : list cell) : list cell :=
  drop_cols_from categorical_cols 0 row.

Fixpoint index_of (j : Z) (l : list Z) : option nat :=
  match l with
  | [] => None
  | x :: l' => if Z.eqb j x then Some O
               else option_map S (index_of j l')
  end.

(** Lines 166-172: the resampled numeric row followed by the group values,
    reordered by [.loc[:, X_resampled.columns]] to columns [0 .. m-1]. *)
Fixpoint place (categorical_cols : list Z) (group_values : list cell) (j : Z)
    (fuel : nat) (numeric : list cell) : list cell :=
  match fuel with
  | O => []
  | S f =>
      match index_of j categorical_cols with
      | Some p => nth p group_values NaN
                    :: place categorical_cols group_values (j + 1) f numeric
      | None =>
          match numeric with
          | v :: numeric' => v :: place categorical_cols group_values (j + 1) f numeric'
          | [] => NaN :: place categorical_cols group_values (j + 1) f []
          end
      end
  end.

(** Line 166: [np.array(group_values * 0).reshape(0, -1)] raises
    [ValueError] on an empty [_partial_sample] result (the [-1] cannot be
    inferred from a size-0 array); the [pd.DataFrame(..., columns=...)]
    constructor of line 168 raises when the width of the resampled rows
    does not match. *)
Definition reassemble (categorical_cols : list Z) (group_values : list cell)
    (m : nat) (Xg : list (list cell)) : res (list (list cell)) :=
  match Xg with
  | [] => Err ValueError
  | _ :: _ =>
      if forallb (fun r => Nat.eqb (length r + length categorical_cols) m) Xg
      then Ok (map (place categorical_cols group_values 0 m) Xg)
      else Err ValueError
  end.

(** ** Integer columns (lines 184-185) *)

(** [np.round]: nearest integer, ties to even. *)
Definition round_half_even (q : Q) : Z :=
  let f := Qfloor q in
  let d := (q - inject_Z f)%Q in
  if Qltb d (1 # 2) then f
  else if Qltb (1 # 2) d then f + 1
  else if Z.even f then f else f + 1.

(** [.astype(int)] to int64: a value out of range, or NaN, becomes the
    integer the hardware conversion yields (-2^63 on x86-64). *)
Definition int64_min : Z := - 2 ^ 63.

Definition astype_int (z : Z) : Z :=
  if (int64_min <=? z) && (z <? 2 ^ 63) then z else int64_min.

(** [np.round] on a cell: NaN stays NaN. *)
Definition np_round (c : cell) : cell :=
  match c with
  | Num q => Num (inject_Z (round_half_even q))
  | NaN => NaN
  end.

(** [.astype(int)] on a cell whose number is whole. *)
Definition astype_int_cell (c : cell) : cell :=
  match c with
  | Num q => Num (inject_Z (astype_int (Qfloor q)))
  | NaN => Num (inject_Z int64_min)
  end.

Definition np_round_astype_int (c : cell) : cell := astype_int_cell (np_round c).

Fixpoint round_row (integer_cols : list Z) (j : Z) (row : list cell) : list cell :=
  match row with
  | [] => []
  | c :: row' =>
      (if mem_col j integer_cols then np_round_astype_int c else c)
        :: round_row integer_cols (j + 1) row'
  end.

(** [X_resampled[:, integer_cols] = np.round(X_resampled[:, integer_cols]).astype(int)] *)
Definition round_integer_cols (integer_cols : list Z) (Xr : list (list cell))
    : list (list cell) :=
  map (round_row integer_cols 0) Xr.

(** ** The sampler object *)

(** The [random_state] constructor parameter, as [check_random_state]
    tells its cases apart. *)
Inductive random_state_param : Type :=
| RSNone                (** [None], or the [np.random] module *)
| RSInt (seed : Z)      (** an integer *)
| RSRandomState         (** a [np.random.RandomState] instance *)
| RSOther.              (** anything else *)

(** [sklearn.utils.check_random_state]: an integer seeds
    [np.random.RandomState(seed)], which raises [ValueError] outside
    [0 .. 2**32 - 1]; a value of any other kind raises [ValueError]. *)
Definition check_random_state (seed : random_state_param) : res unit :=
  match seed with
  | RSNone | RSRandomState => Ok tt
  | RSInt z => if (0 <=? z) && (z <? 2 ^ 32) then Ok tt else Err ValueError
  | RSOther => Err ValueError
  end.

(** Constructor parameters; [k_neighbors] is [None] when the derived class
    has no such attribute ([hasattr(self, 'k_neighbors')]). *)
Record config : Type := {
  integer_cols : option (list Z);
  categorical_cols : option (list Z);
  imbalance_ratio_threshold : Q;
  k_neighbors : option Z;
  random_state : random_state_param
}.

(** Attributes written by [_sample]. *)
Record sampler_state : Type := {
  ratio_ : list (Z * Z);
  n_overasmpled_groups_ : nat
}.

(** The input matrix [X]: [n_features] is [X.shape[1]]. *)
Record matrix : Type := {
  n_features : nat;
  X_rows : list (list cell)
}.

(** ** State and exception monad *)

Definition M (A : Type) : Type := sampler_state -> res A * sampler_state.

Definition ret {A : Type} (a : A) : M A := fun s => (Ok a, s).

Definition bind {A B : Type} (m : M A) (k : A -> M B) : M B :=
  fun s => match m s with
           | (Ok a, s') => k a s'
           | (Err e, s') => (Err e, s')
           end.

Notation "x <- m ;; k" := (bind m (fun x => k))
  (at level 61, m at next level, right associativity).

Definition raise {A : Type} (e : error) : M A := fun s => (Err e, s).

Definition lift {A : Type} (r : res A) : M A := fun s => (r, s).

Definition get_ratio : M (list (Z * Z)) := fun s => (Ok (ratio_ s), s).

Definition set_ratio (r : list (Z * Z)) : M unit :=
  fun s => (Ok tt, {| ratio_ := r; n_overasmpled_groups_ := n_overasmpled_groups_ s |}).

Definition set_n_overasmpled_groups (n : nat) : M unit :=
  fun s => (Ok tt, {| ratio_ := ratio_ s; n_overasmpled_groups_ := n |}).

(** ** Validation (lines 100-118) *)

(** [len(cols) == 0 or not set(range(m)).issuperset(cols)]; [None] makes
    [len] raise, which the bare [except] turns into [ValueError] too. *)
Definition cols_ok (m : nat) (cols : option (list Z)) : bool :=
  match cols with
  | None => false
  | Some l => negb (Nat.eqb (length l) 0)
              && forallb (fun j => (0 <=? j) && (j <? Z.of_nat m)) l
  end.

Definition isdisjoint (a b : list Z) : bool :=
  forallb (fun j => negb (mem_col j b)) a.

(** [[label for label, n_samples in self.ratio_.items() if n_samples == 0][0]] *)
Definition majority_label_of (ratio : list (Z * Z)) : res Z :=
  match find (fun '(_, n) => Z.eqb n 0) ratio with
  | Some (l, _) => Ok l
  | None => Err IndexError
  end.

(** [classes_stats]: each group key with the statistics of its labels. *)
Definition classes_stats_of (cc : list Z) (df : list df_row) (majority_label : Z)
    (imbalance_ratio_threshold : Q) (k_neighbors : option Z)
    : list (list cell * (bool * list (Z * Q))) :=
  map (fun k => (k, _generate_classes_stats (group_labels cc df k) majority_label
                      imbalance_ratio_threshold k_neighbors))
      (group_keys cc df).

(** Lines 179-180: [pd.merge(df, excluded_groups)]. *)
Definition excluded_rows (cc : list Z) (df : list df_row)
    (classes_stats : list (list cell * (bool * list (Z * Q)))) : list df_row :=
  let excluded := filter (fun '(_, st) => negb (fst st)) classes_stats in
  merge_rows cc df (fun key => existsb (fun '(k, _) => key_eqb k key) excluded).

Section Sample.

(** The abstract method [_partial_sample(X, y)] of the derived class; it
    reads [self.ratio_]. *)
Variable _partial_sample :
  list (Z * Z) -> list (list cell) -> list Z -> res (list (list cell) * list Z).

Definition partial_sample (X : list (list cell)) (y : list Z)
    : M (list (list cell) * list Z) :=
  fun s => (_partial_sample (ratio_ s) X y, s).

(** The loop of lines 154-173. *)
Fixpoint oversample_groups (cc : list Z) (m : nat) (df : list df_row)
    (majority_label : Z) (initial_ratio : list (Z * Z))
    (groups : list (list cell * list (Z * option Q)))
    : M (list (list cell) * list Z) :=
  match groups with
  | [] => ret ([], [])
  | (group_values, weight) :: rest =>
      r <- lift (group_ratio majority_label initial_ratio weight) ;;
      _ <- set_ratio r ;;
      let df_group := merge_rows cc df (key_eqb group_values) in
      out <- partial_sample (map (fun '(row, _) => drop_cols cc row) df_group)
                            (map snd df_group) ;;
      Xg <- lift (reassemble cc group_values m (fst out)) ;;
      acc <- oversample_groups cc m df majority_label initial_ratio rest ;;
      ret (Xg ++ fst acc, snd out ++ snd acc)
  end.

(** Lines 120-182: grouping, weights, the loop and the excluded rows;
    the result is [X_resampled, y_resampled] before line 185. *)
Definition resample_groups (cc : list Z) (cfg : config) (X : matrix) (y : list Z)
    : M (list (list cell) * list Z) :=
  let m := n_features X in
  let df := combine (X_rows X) y in
  ratio <- get_ratio ;;
  majority_label <- lift (majority_label_of ratio) ;;
  let minority_labels :=
    filter (fun l => negb (Z.eqb l majority_label)) (map fst ratio) in
  let classes_stats := classes_stats_of cc df majority_label
                         (imbalance_ratio_threshold cfg) (k_neighbors cfg) in
  let included := filter (fun '(_, st) => fst st) classes_stats in
  _ <- set_n_overasmpled_groups (length included) ;;
  (* Line 140: with no group at all, [boolean_mask] is an empty Series
     that is not of boolean dtype, so [classes_stats[boolean_mask]]
     selects no column and [.iloc[:, -1]] raises [IndexError]. *)
  match classes_stats with
  | [] => raise IndexError
  | _ :: _ =>
      let imbalance_ratios := map (fun '(_, st) => snd st) included in
      let weights := weights_iterrows (weights_columns minority_labels imbalance_ratios)
                                      (length included) in
      let initial_ratio := ratio in
      out <- oversample_groups cc m df majority_label initial_ratio
                               (combine (map fst included) weights) ;;
      _ <- set_ratio initial_ratio ;;
      let df_excluded := excluded_rows cc df classes_stats in
      ret (fst out ++ map fst df_excluded, snd out ++ map snd df_excluded)
  end.

Definition _sample (cfg : config) (X : matrix) (y : list Z)
    : M (list (list cell) * list Z) :=
  _ <- lift (check_random_state (random_state cfg)) ;;
  match categorical_cols cfg with
  | None => partial_sample (X_rows X) y
  | Some cc =>
      let m := n_features X in
      if negb (cols_ok m (integer_cols cfg)) then raise ValueError else
      if negb (cols_ok m (Some cc)) then raise ValueError else
      let ic := match integer_cols cfg with Some l => l | None => [] end in
      if negb (isdisjoint ic cc) then raise ValueError else
      if Qle_bool (imbalance_ratio_threshold cfg) 0 then raise ValueError else
      out <- resample_groups cc cfg X y ;;
      (* Line 185. *)
      ret (round_integer_cols ic (fst out), snd out)
  end.

End Sample.

(** ** Concrete inputs *)

(** Two categorical values (column 0), an integer column (column 1);
    label 0 is the majority, label 1 needs 2 more samples (the ['auto']
    ratio of [y_two_groups]). *)
Definition cfg_two_groups : config :=
  {| integer_cols := Some [1]; categorical_cols := Some [0];
     imbalance_ratio_threshold := 3%Q; k_neighbors := None; random_state := RSNone |}.

Definition X_two_groups : matrix :=
  {| n_features := 2;
     X_rows := [[Num 0; Num 1]; [Num 0; Num 1]; [Num 0; Num 1];
                [Num 1; Num 1]; [Num 1; Num 1]; [Num 1; Num 1]] |}.

Definition y_two_groups : list Z := [0; 0; 1; 0; 0; 1].

Definition state_two_groups : sampler_state :=
  {| ratio_ := [(0, 0); (1, 2)]; n_overasmpled_groups_ := 0 |}.

(** No categorical columns, and the seed [-1], which
    [np.random.RandomState] rejects. *)
Definition cfg_bad_seed : config :=
  {| integer_cols := None; categorical_cols := None;
     imbalance_ratio_threshold := 1%Q; k_neighbors := None; random_state := RSInt (-1) |}.

(** No categorical columns, and a [random_state] of an unsupported kind;
    [integer_cols] and the threshold are invalid too. *)
Definition cfg_other_seed : config :=
  {| integer_cols := Some []; categorical_cols := None;
     imbalance_ratio_threshold := 0%Q; k_neighbors := None; random_state := RSOther |}.

(** A [_partial_sample] that raises on every call. *)
Definition failing_sampler (_ : list (Z * Z)) (_ : list (list cell)) (_ : list Z)
    : res (list (list cell) * list Z) :=
  Err (SamplerError 0).

(** A [_partial_sample] that returns its input. *)
Definition identity_sampler (_ : list (Z * Z)) (X : list (list cell)) (y : list Z)
    : res (list (list cell) * list Z) :=
  Ok (X, y).

(** Same rows; group 0 holds labels 0 and 1, group 1 labels 0 and 2. *)
Definition y_missing_label : list Z := [0; 0; 1; 0; 0; 2].

Definition state_missing_label : sampler_state :=
  {| ratio_ := [(0, 0); (1, 3); (2, 3)]; n_overasmpled_groups_ := 0 |}.

(** One row whose categorical value is NaN; label 0 is the only label. *)
Definition cfg_one_cat : config :=
  {| integer_cols := Some [1]; categorical_cols := Some [0];
     imbalance_ratio_threshold := 1%Q; k_neighbors := None; random_state := RSNone |}.



(** Both groups excluded at threshold 1; the first row holds 0.5 in the
    integer column. *)
Definition X_half : matrix :=
  {| n_features := 2; X_rows := [[Num 0; Num (1 # 2)]; [Num 0; Num 1]; [Num 1; Num 1]] |}.

Definition y_half : list Z := [0; 1; 0].




(** A [_partial_sample] that returns its input rows paired with their
    labels, so that as many labels as rows come back. *)
Definition paired_sampler (_ : list (Z * Z)) (X : list (list cell)) (y : list Z)
    : res (list (list cell) * list Z) :=
  Ok (map fst (combine X y), map snd (combine X y)).

(** * Auxiliary functions of the properties *)

(** The number of columns among [j .. j + n - 1] that are not categorical. *)
Fixpoint free_cols (categorical_cols : list Z) (j : Z) (n : nat) : nat :=
  match n with
  | O => O
  | S n' => (if mem_col j categorical_cols then 0 else 1)
            + free_cols categorical_cols (j + 1) n'
  end.

(** * Properties *)

(** ** Unfolding [_sample] *)

Lemma sample_eq ps cfg X y s :
  _sample ps cfg X y s =
  match check_random_state (random_state cfg) with
  | Err e => (Err e, s)
  | Ok _ =>
      match categorical_cols cfg with
      | None => (ps (ratio_ s) (X_rows X) y, s)
      | Some cc =>
          if negb (cols_ok (n_features X) (integer_cols cfg)) then (Err ValueError, s) else
          if negb (cols_ok (n_features X) (Some cc)) then (Err ValueError, s) else
          if negb (isdisjoint (match integer_cols cfg with Some l => l | None => [] end) cc)
          then (Err ValueError, s) else
          if Qle_bool (imbalance_ratio_threshold cfg) 0 then (Err ValueError, s) else
          match resample_groups ps cc cfg X y s with
          | (Ok out, s2) =>
              (Ok (round_integer_cols (match integer_cols cfg with Some l => l | None => [] end)
                     (fst out), snd out), s2)
          | (Err e, s2) => (Err e, s2)
          end
      end
  end.
Proof.
  unfold _sample, bind at 1, lift.
  destruct (check_random_state (random_state cfg)); [|reflexivity].
  destruct (categorical_cols cfg) as [cc|]; [|reflexivity].
  destruct (negb (cols_ok _ (integer_cols cfg))); [reflexivity|].
  destruct (negb (cols_ok _ (Some cc))); [reflexivity|].
  destruct (negb (isdisjoint _ cc)); [reflexivity|].
  destruct (Qle_bool _ 0); reflexivity.
Qed.

Lemma resample_groups_eq ps cc cfg X y s :
  resample_groups ps cc cfg X y s =
  match majority_label_of (ratio_ s) with
  | Err e => (Err e, s)
  | Ok maj =>
      let df := combine (X_rows X) y in
      let classes_stats := classes_stats_of cc df maj (imbalance_ratio_threshold cfg)
                             (k_neighbors cfg) in
      let included := filter (fun '(_, st) => fst st) classes_stats in
      let s1 := {| ratio_ := ratio_ s; n_overasmpled_groups_ := length included |} in
      match classes_stats with
      | [] => (Err IndexError, s1)
      | _ :: _ =>
          match oversample_groups ps cc (n_features X) df maj (ratio_ s)
                  (combine (map fst included)
                     (weights_iterrows
                        (weights_columns (filter (fun l => negb (Z.eqb l maj)) (map fst (ratio_ s)))
                           (map (fun '(_, st) => snd st) included))
                        (length included))) s1 with
          | (Ok out, s2) =>
              let ex := excluded_rows cc df classes_stats in
              (Ok (fst out ++ map fst ex, snd out ++ map snd ex),
               {| ratio_ := ratio_ s; n_overasmpled_groups_ := n_overasmpled_groups_ s2 |})
          | (Err e, s2) => (Err e, s2)
          end
      end
  end.
Proof.
  unfold resample_groups, bind, get_ratio, lift, set_n_overasmpled_groups.
  destruct (majority_label_of (ratio_ s)) as [maj|e]; [|reflexivity].
  cbv zeta.
  destruct (classes_stats_of cc (combine (X_rows X) y) maj _ _); [reflexivity|].
  match goal with
  | |- context [oversample_groups ?a1 ?a2 ?a3 ?a4 ?a5 ?a6 ?a7 ?st] =>
      destruct (oversample_groups a1 a2 a3 a4 a5 a6 a7 st) as [[o|e] s2]
  end; reflexivity.
Qed.

Lemma check_random_state_error seed e :
  check_random_state seed = Err e -> e = ValueError.
Proof.
  unfold check_random_state. destruct seed as [| z | |]; try discriminate.
  - destruct ((0 <=? z) && (z <? 2 ^ 32)); [discriminate|].
    intros He. injection He as <-. reflexivity.
  - intros He. injection He as <-. reflexivity.
Qed.

(** ** Configuration restoration *)

(** Helper: on the success path of [_sample], [ratio_] ends as it started. *)
Lemma ratio_restored_on_success ps cfg X y s r s' :
  _sample ps cfg X y s = (Ok r, s') -> ratio_ s' = ratio_ s.
Proof.
  rewrite sample_eq.
  destruct (check_random_state (random_state cfg)); [|discriminate].
  destruct (categorical_cols cfg) as [cc|].
  2:{ intros H. injection H as _ <-. reflexivity. }
  destruct (negb (cols_ok _ (integer_cols cfg))); [discriminate|].
  destruct (negb (cols_ok _ (Some cc))); [discriminate|].
  destruct (negb (isdisjoint _ cc)); [discriminate|].
  destruct (Qle_bool _ 0); [discriminate|].
  rewrite resample_groups_eq.
  destruct (majority_label_of (ratio_ s)) as [maj|e]; [|discriminate].
  cbv zeta.
  destruct (classes_stats_of cc (combine (X_rows X) y) maj _ _); [discriminate|].
  match goal with
  | |- context [oversample_groups ?a1 ?a2 ?a3 ?a4 ?a5 ?a6 ?a7 ?st] =>
      destruct (oversample_groups a1 a2 a3 a4 a5 a6 a7 st) as [[o|err] s2]
  end; [|discriminate].
  intros H. injection H as _ <-. reflexivity.
Qed.

(** C1 (code_bug).  When [_partial_sample] raises on an included group,
    [_sample] propagates the exception with [ratio_] still holding that
    group's ratio ([{0: 0, 1: 1}]), not the value [{0: 0, 1: 2}] it had
    before the call: the restore on line 176 is skipped. *)
Theorem ratio_not_restored_on_sampler_failure :
  _sample failing_sampler cfg_two_groups X_two_groups y_two_groups state_two_groups
  = (Err (SamplerError 0), {| ratio_ := [(0, 0); (1, 1)]; n_overasmpled_groups_ := 2 |})
  /\ [(0, 0); (1, 1)] <> ratio_ state_two_groups.
Proof.
  split.
  - vm_compute. reflexivity.
  - simpl. discriminate.
Qed.

(** C2 (code_bug).  Group 0 is included but has no sample of label 2, so
    its weight for label 2 is NaN and [int(3 * nan)] raises [ValueError]:
    the call fails before any [_partial_sample], whatever the sampler. *)
Theorem missing_label_weight_raises :
  forall ps,
  _sample ps cfg_two_groups X_two_groups y_missing_label state_missing_label
  = (Err ValueError, {| ratio_ := [(0, 0); (1, 3); (2, 3)]; n_overasmpled_groups_ := 2 |}).
Proof.
  intros ps. vm_compute. reflexivity.
Qed.

(** ** Without categorical columns *)

(** C3 (corrected).  With [categorical_cols = None] and a [random_state]
    that [check_random_state] accepts, [_sample] is [_partial_sample] on the
    whole dataset, with the same result and the same state. *)
Theorem sample_without_categorical_cols ps cfg X y s :
  categorical_cols cfg = None -> check_random_state (random_state cfg) = Ok tt ->
  _sample ps cfg X y s = (ps (ratio_ s) (X_rows X) y, s).
Proof.
  intros H Hr. rewrite sample_eq, Hr, H. reflexivity.
Qed.

Lemma sample_without_categorical_cols_witness :
  _sample identity_sampler
    {| integer_cols := None; categorical_cols := None;
       imbalance_ratio_threshold := 1%Q; k_neighbors := None; random_state := RSInt 42 |}
    X_two_groups y_two_groups state_two_groups
  = (identity_sampler (ratio_ state_two_groups) (X_rows X_two_groups) y_two_groups,
     state_two_groups).
Proof.
  apply (sample_without_categorical_cols identity_sampler
           {| integer_cols := None; categorical_cols := None;
              imbalance_ratio_threshold := 1%Q; k_neighbors := None;
              random_state := RSInt 42 |}).
  - reflexivity.
  - reflexivity.
Defined.

(** Counterexample to C3: with the seed [-1], line 93 raises [ValueError]
    although [_partial_sample] on the whole dataset succeeds. *)
Lemma invalid_seed_breaks_delegation :
  _sample identity_sampler cfg_bad_seed X_two_groups y_two_groups state_two_groups
  = (Err ValueError, state_two_groups)
  /\ identity_sampler (ratio_ state_two_groups) (X_rows X_two_groups) y_two_groups
     = Ok (X_rows X_two_groups, y_two_groups).
Proof.
  split; reflexivity.
Qed.

(** C10 (corrected).  With [categorical_cols = None] the only parameter
    checked is [random_state] (line 93, [ValueError]); [integer_cols] and
    [imbalance_ratio_threshold] are not looked at: the outcome is the
    [_partial_sample] result when the seed is accepted, the state is never
    changed by [_sample] itself. *)
Theorem no_validation_without_categorical_cols ps cfg X y s :
  categorical_cols cfg = None ->
  _sample ps cfg X y s
  = (match check_random_state (random_state cfg) with
     | Ok _ => ps (ratio_ s) (X_rows X) y
     | Err e => Err e
     end, s)
  /\ (forall e, check_random_state (random_state cfg) = Err e -> e = ValueError).
Proof.
  intros H. split.
  - rewrite sample_eq, H. destruct (check_random_state (random_state cfg)); reflexivity.
  - unfold check_random_state. destruct (random_state cfg) as [| z | |]; try discriminate.
    + destruct ((0 <=? z) && (z <? 2 ^ 32)); [discriminate|]. intros e He.
      injection He as <-. reflexivity.
    + intros e He. injection He as <-. reflexivity.
Qed.

Lemma no_validation_without_categorical_cols_witness :
  _sample identity_sampler
    {| integer_cols := Some []; categorical_cols := None;
       imbalance_ratio_threshold := (-1)%Q; k_neighbors := None; random_state := RSInt 7 |}
    X_two_groups y_two_groups state_two_groups
  = (match check_random_state (RSInt 7) with
     | Ok _ => identity_sampler (ratio_ state_two_groups) (X_rows X_two_groups) y_two_groups
     | Err e => Err e
     end, state_two_groups)
  /\ (forall e, check_random_state (RSInt 7) = Err e -> e = ValueError).
Proof.
  apply (no_validation_without_categorical_cols identity_sampler
           {| integer_cols := Some []; categorical_cols := None;
              imbalance_ratio_threshold := (-1)%Q; k_neighbors := None;
              random_state := RSInt 7 |}
           X_two_groups y_two_groups state_two_groups).
  reflexivity.
Defined.

(** Counterexample to C10: without categorical columns a configuration
    value is still validated: [random_state] of an unsupported kind makes
    [_sample] raise [ValueError], where [_partial_sample] (here the
    identity) returns its input. *)
Lemma random_state_validated_without_categorical_cols :
  _sample identity_sampler cfg_other_seed X_two_groups y_two_groups state_two_groups
  = (Err ValueError, state_two_groups)
  /\ identity_sampler (ratio_ state_two_groups) (X_rows X_two_groups) y_two_groups
     = Ok (X_rows X_two_groups, y_two_groups).
Proof.
  split; reflexivity.
Qed.

(** ** Validation *)

Lemma isdisjoint_false_of_common (ic cc : list Z) j :
  In j ic -> In j cc -> isdisjoint ic cc = false.
Proof.
  intros Hi Hc. unfold isdisjoint.
  apply Bool.not_true_iff_false. intros Hall.
  rewrite forallb_forall in Hall. specialize (Hall j Hi).
  assert (mem_col j cc = true) as Hm.
  { unfold mem_col. apply existsb_exists. exists j. split; [exact Hc|apply Z.eqb_refl]. }
  rewrite Hm in Hall. discriminate.
Qed.

(** C9.  With categorical columns configured, [integer_cols] sharing a
    column with [categorical_cols], or [imbalance_ratio_threshold <= 0],
    makes [_sample] raise [ValueError] at once: the state is untouched and
    [_partial_sample] is never called (the outcome does not depend on it). *)
Theorem validation_rejects_overlap_or_threshold ps cfg X y s cc :
  categorical_cols cfg = Some cc ->
  (exists ic j, integer_cols cfg = Some ic /\ In j ic /\ In j cc)
  \/ (imbalance_ratio_threshold cfg <= 0)%Q ->
  _sample ps cfg X y s = (Err ValueError, s).
Proof.
  intros Hcc Hbad. rewrite sample_eq.
  destruct (check_random_state (random_state cfg)) as [u|e] eqn:Hr.
  2:{ apply check_random_state_error in Hr. subst e. reflexivity. }
  rewrite Hcc.
  destruct (negb (cols_ok _ (integer_cols cfg))); [reflexivity|].
  destruct (negb (cols_ok _ (Some cc))); [reflexivity|].
  destruct Hbad as [(ic & j & Hic & Hj & Hjc) | Hthr].
  - rewrite Hic, (isdisjoint_false_of_common ic cc j Hj Hjc). reflexivity.
  - destruct (negb (isdisjoint _ cc)); [reflexivity|].
    apply Qle_bool_iff in Hthr. rewrite Hthr. reflexivity.
Qed.

Lemma validation_rejects_overlap_or_threshold_witness :
  _sample identity_sampler
    {| integer_cols := Some [0; 1]; categorical_cols := Some [0];
       imbalance_ratio_threshold := 3%Q; k_neighbors := None; random_state := RSNone |}
    X_two_groups y_two_groups state_two_groups
  = (Err ValueError, state_two_groups)
  /\ _sample identity_sampler
    {| integer_cols := Some [1]; categorical_cols := Some [0];
       imbalance_ratio_threshold := 0%Q; k_neighbors := None; random_state := RSNone |}
    X_two_groups y_two_groups state_two_groups
  = (Err ValueError, state_two_groups).
Proof.
  split.
  - apply (validation_rejects_overlap_or_threshold identity_sampler
             {| integer_cols := Some [0; 1]; categorical_cols := Some [0];
                imbalance_ratio_threshold := 3%Q; k_neighbors := None; random_state := RSNone |}
             X_two_groups y_two_groups state_two_groups [0]).
    + reflexivity.
    + left. exists [0; 1], 0. simpl. auto.
  - apply (validation_rejects_overlap_or_threshold identity_sampler
             {| integer_cols := Some [1]; categorical_cols := Some [0];
                imbalance_ratio_threshold := 0%Q; k_neighbors := None; random_state := RSNone |}
             X_two_groups y_two_groups state_two_groups [0]).
    + reflexivity.
    + right. simpl. vm_compute. discriminate.
Defined.

(** ** [Counter] *)

Definition count (y : list Z) (l : Z) : Z := Z.of_nat (count_occ Z.eq_dec y l).

Lemma Qltb_iff a b : Qltb a b = true <-> (a < b)%Q.
Proof.
  unfold Qltb. rewrite Bool.negb_true_iff, <- Bool.not_true_iff_false, Qle_bool_iff.
  split; [apply Qnot_le_lt | apply Qlt_not_le].
Qed.

Lemma assoc_counter_add c x l :
  assoc l (counter_add c x)
  = if Z.eqb l x then Some (counter_get c x + 1) else assoc l c.
Proof.
  unfold counter_get.
  induction c as [|[l' n] c IH]; simpl.
  - destruct (Z.eqb l x); reflexivity.
  - destruct (Z.eqb x l') eqn:Exl'; simpl.
    + apply Z.eqb_eq in Exl'; subst l'.
      destruct (Z.eqb l x); reflexivity.
    + destruct (Z.eqb l l') eqn:Ell'.
      * apply Z.eqb_eq in Ell'; subst l'.
        destruct (Z.eqb l x) eqn:Elx; [|reflexivity].
        apply Z.eqb_eq in Elx; subst x. rewrite Z.eqb_refl in Exl'. discriminate.
      * rewrite IH. reflexivity.
Qed.

Lemma counter_get_fold y c l :
  counter_get (fold_left counter_add y c) l = counter_get c l + count y l.
Proof.
  unfold count.
  revert c; induction y as [|x y IH]; intros c; simpl.
  - lia.
  - rewrite IH. unfold counter_get at 1. rewrite assoc_counter_add.
    destruct (Z.eq_dec x l) as [->|Hne].
    + rewrite Z.eqb_refl. unfold counter_get. lia.
    + assert (Z.eqb l x = false) as -> by (apply Z.eqb_neq; congruence).
      unfold counter_get. lia.
Qed.

Lemma assoc_fold_none y c l :
  assoc l (fold_left counter_add y c) = None <-> assoc l c = None /\ ~ In l y.
Proof.
  revert c; induction y as [|x y IH]; intros c; simpl.
  - tauto.
  - rewrite IH, assoc_counter_add.
    destruct (Z.eqb l x) eqn:Elx.
    + apply Z.eqb_eq in Elx. split; [intros [H _]; discriminate|].
      intros [_ H]. exfalso. apply H. left. congruence.
    + apply Z.eqb_neq in Elx. split.
      * intros [H1 H2]. split; [exact H1|]. intros [H|H]; [congruence|tauto].
      * intros [H1 H2]. split; [exact H1|]. intros H; apply H2; right; exact H.
Qed.

Lemma keys_counter_add c x k :
  In k (map fst (counter_add c x)) <-> k = x \/ In k (map fst c).
Proof.
  induction c as [|[l' n] c IH]; simpl.
  - split; intros [H|[]]; left; congruence.
  - destruct (Z.eqb x l') eqn:E; simpl.
    + apply Z.eqb_eq in E; subst. split.
      * intros [H|H]; [right; left; exact H | right; right; exact H].
      * intros [H|[H|H]]; [left; congruence | left; exact H | right; exact H].
    + rewrite IH. tauto.
Qed.

Lemma nodup_counter_add c x :
  NoDup (map fst c) -> NoDup (map fst (counter_add c x)).
Proof.
  induction c as [|[l' n] c IH]; simpl; intros Hnd.
  - constructor; [intros []|constructor].
  - inversion Hnd as [|? ? Hnin Hnd']; subst.
    destruct (Z.eqb x l') eqn:E; simpl; constructor; auto.
    rewrite keys_counter_add. intros [->|H]; [|tauto].
    rewrite Z.eqb_refl in E. discriminate.
Qed.

Lemma nodup_fold y c :
  NoDup (map fst c) -> NoDup (map fst (fold_left counter_add y c)).
Proof.
  revert c; induction y as [|x y IH]; intros c Hnd; simpl; auto using nodup_counter_add.
Qed.

Lemma In_assoc {B : Type} (c : list (Z * B)) l v :
  NoDup (map fst c) -> (In (l, v) c <-> assoc l c = Some v).
Proof.
  induction c as [|[l' v'] c IH]; simpl; intros Hnd.
  - split; [intros []|discriminate].
  - inversion Hnd as [|? ? Hnin Hnd']; subst.
    destruct (Z.eqb l l') eqn:E.
    + apply Z.eqb_eq in E; subst l'. split.
      * intros [H|H]; [congruence|].
        exfalso. apply Hnin. apply (in_map fst) in H. exact H.
      * intros H; inversion H; subst; left; reflexivity.
    + apply Z.eqb_neq in E. rewrite <- IH by exact Hnd'. split.
      * intros [H|H]; [congruence|exact H].
      * intros H; right; exact H.
Qed.

(** The entries of [Counter(y)] are the labels present in [y] with their
    number of occurrences. *)
Lemma In_Counter y l n :
  In (l, n) (Counter y) <-> In l y /\ n = count y l.
Proof.
  unfold Counter.
  rewrite In_assoc by (apply nodup_fold; constructor).
  pose proof (counter_get_fold y [] l) as Hget.
  pose proof (assoc_fold_none y [] l) as Hnone.
  unfold counter_get in Hget. simpl in Hget, Hnone.
  destruct (assoc l (fold_left counter_add y [])) as [m|] eqn:E;
    rewrite ?E in Hget, Hnone.
  - split.
    + intros H. injection H as <-. split; [|lia].
      destruct (in_dec Z.eq_dec l y) as [Hin|Hin]; [exact Hin|].
      assert (Some m = None) by (apply Hnone; tauto). discriminate.
    + intros [_ ->]. f_equal. lia.
  - split; [discriminate|]. intros [Hin _]. exfalso. apply (proj1 Hnone eq_refl). exact Hin.
Qed.

Lemma counter_get_Counter y l : counter_get (Counter y) l = count y l.
Proof. unfold Counter. rewrite counter_get_fold. reflexivity. Qed.

(** ** Group statistics *)

(** C4.  [include_group] holds iff SOME non-majority label present in the
    group has imbalance ratio [count(majority) / count(label)] below the
    threshold and, when [k_neighbors] is defined, more than [k_neighbors]
    samples; with [k_neighbors] undefined only the ratio counts. *)
Theorem include_group_iff_any y majority_label thr k :
  fst (_generate_classes_stats y majority_label thr k) = true <->
  exists label, In label y /\ label <> majority_label /\
    (inject_Z (count y majority_label) / inject_Z (count y label) < thr)%Q /\
    (forall kk, k = Some kk -> kk < count y label).
Proof.
  unfold _generate_classes_stats. simpl.
  rewrite existsb_exists. split.
  - intros [[l [ir n]] [Hin Hsel]].
    apply in_map_iff in Hin as [[l' n'] [Heq Hin]].
    injection Heq as -> <- ->.
    apply filter_In in Hin as [Hin Hneq].
    apply In_Counter in Hin as [Hin ->].
    rewrite counter_get_Counter in Hsel.
    apply Bool.negb_true_iff, Z.eqb_neq in Hneq.
    exists l. split; [exact Hin|]. split; [exact Hneq|].
    destruct k as [kk|].
    + apply andb_prop in Hsel as [Hr Hk]. apply Qltb_iff in Hr.
      split; [exact Hr|]. intros kk' E; injection E as <-. apply Z.ltb_lt; exact Hk.
    + apply Qltb_iff in Hsel. split; [exact Hsel|]. discriminate.
  - intros (l & Hin & Hneq & Hr & Hk).
    exists (l, ((inject_Z (count y majority_label) / inject_Z (count y l))%Q, count y l)).
    split.
    + apply in_map_iff. exists (l, count y l).
      rewrite counter_get_Counter. split; [reflexivity|].
      apply filter_In. split; [apply In_Counter; auto|].
      apply Bool.negb_true_iff, Z.eqb_neq; exact Hneq.
    + apply Qltb_iff in Hr. destruct k as [kk|].
      * rewrite Hr. simpl. apply Z.ltb_lt, Hk; reflexivity.
      * exact Hr.
Qed.

(** ** Oversampling weights *)

Lemma assoc_modified_ratios (c : list (Z * Z)) (g : Z -> Q) m l :
  assoc l (map (fun '(label, n_samples) => (label, g n_samples))
               (filter (fun '(label, _) => negb (Z.eqb label m)) c))
  = if Z.eqb l m then None else option_map g (assoc l c).
Proof.
  induction c as [|[k v] c IH]; simpl.
  - destruct (Z.eqb l m); reflexivity.
  - destruct (Z.eqb k m) eqn:Ekm; simpl.
    + rewrite IH. destruct (Z.eqb l m) eqn:Elm; [reflexivity|].
      destruct (Z.eqb l k) eqn:Elk; [|reflexivity].
      apply Z.eqb_eq in Ekm, Elk. subst. rewrite Z.eqb_refl in Elm. discriminate.
    + destruct (Z.eqb l k) eqn:Elk.
      * apply Z.eqb_eq in Elk; subst k. rewrite Ekm. reflexivity.
      * exact IH.
Qed.

Lemma assoc_Counter y l :
  assoc l (Counter y) = if in_dec Z.eq_dec l y then Some (count y l) else None.
Proof.
  destruct (in_dec Z.eq_dec l y) as [Hin|Hnin].
  - apply In_assoc; [apply nodup_fold; constructor|].
    apply In_Counter. auto.
  - apply assoc_fold_none. simpl. auto.
Qed.

(** The modified imbalance ratio of a label, as [_generate_classes_stats]
    returns it: defined iff the label is a non-majority label of the group,
    and then positive. *)
Lemma assoc_generate_classes_stats y m thr k l :
  assoc l (snd (_generate_classes_stats y m thr k))
  = if Z.eqb l m then None
    else if in_dec Z.eq_dec l y
         then Some (inject_Z (count y m + 1) / inject_Z (count y l + 1))%Q
         else None.
Proof.
  unfold _generate_classes_stats. simpl.
  rewrite assoc_modified_ratios, assoc_Counter, counter_get_Counter.
  destruct (Z.eqb l m); [reflexivity|].
  destruct (in_dec Z.eq_dec l y); reflexivity.
Qed.

Lemma count_nonneg y l : 0 <= count y l.
Proof. unfold count. lia. Qed.

Lemma modified_ratio_pos y m l :
  (0 < inject_Z (count y m + 1) / inject_Z (count y l + 1))%Q.
Proof.
  pose proof (count_nonneg y m). pose proof (count_nonneg y l).
  apply Qlt_shift_div_l.
  - unfold Qlt. simpl. lia.
  - rewrite Qmult_0_l. unfold Qlt. simpl. lia.
Qed.

Lemma sum_defined_scale (lw : list (option Q)) s :
  (sum_defined (map (option_map (fun w => w / s)) lw) == sum_defined lw / s)%Q.
Proof.
  induction lw as [|[w|] lw IH]; simpl.
  - unfold Qdiv. ring.
  - rewrite IH. unfold Qdiv. ring.
  - exact IH.
Qed.

Lemma sum_defined_nonneg (lw : list (option Q)) :
  (forall v, In (Some v) lw -> 0 <= v)%Q -> (0 <= sum_defined lw)%Q.
Proof.
  induction lw as [|[w|] lw IH]; simpl; intros Hpos.
  - apply Qle_refl.
  - apply (Qle_trans _ (0 + 0)); [apply Qle_refl|].
    apply Qplus_le_compat; [apply Hpos; left; reflexivity|apply IH; auto].
  - apply IH; auto.
Qed.

Lemma sum_defined_pos (lw : list (option Q)) :
  (forall v, In (Some v) lw -> 0 < v)%Q -> (exists v, In (Some v) lw) ->
  (0 < sum_defined lw)%Q.
Proof.
  induction lw as [|[w|] lw IH]; simpl; intros Hpos [v Hv].
  - destruct Hv.
  - apply (Qlt_le_trans _ (w + 0)).
    + rewrite Qplus_0_r. apply Hpos. left. reflexivity.
    + apply Qplus_le_compat; [apply Qle_refl|].
      apply sum_defined_nonneg. intros u Hu. apply Qlt_le_weak, Hpos. right; exact Hu.
  - destruct Hv as [Hv|Hv]; [discriminate|].
    apply IH; [auto|exists v; exact Hv].
Qed.

Lemma map_nth_seq_length {A : Type} (l : list A) d :
  map (fun i => nth i l d) (seq 0 (length l)) = l.
Proof.
  induction l as [|a l IH]; simpl; [reflexivity|].
  f_equal. rewrite <- seq_shift, map_map. exact IH.
Qed.

Lemma assoc_weights_row (minority_labels : list Z) (g : Z -> list (option Q)) i label :
  In label minority_labels ->
  assoc label (map (fun '(l, col) => (l, nth i col None))
                   (map (fun l => (l, g l)) minority_labels))
  = Some (nth i (g label) None).
Proof.
  induction minority_labels as [|l ml IH]; simpl; intros Hin; [destruct Hin|].
  destruct (Z.eqb label l) eqn:E.
  - apply Z.eqb_eq in E; subst. reflexivity.
  - apply Z.eqb_neq in E. apply IH. destruct Hin; [congruence|assumption].
Qed.

(** C5.  Over the included groups [ys] (their label lists), for a minority
    label present in at least one of them, the weights of the label over
    all groups ([weight[label]] of each row of [weights.iterrows()]) add up
    to 1, NaN ([None]) entries skipped; a group without the label gets NaN,
    i.e. no weight.  Floats are taken as exact rationals. *)
Theorem weights_sum_to_one (ys : list (list Z)) majority_label thr k
    (minority_labels : list Z) label :
  In label minority_labels -> label <> majority_label ->
  (exists y, In y ys /\ In label y) ->
  let imbalance_ratios :=
    map (fun y => snd (_generate_classes_stats y majority_label thr k)) ys in
  let rows := weights_iterrows (weights_columns minority_labels imbalance_ratios)
                               (length ys) in
  (sum_defined (map (fun row => match assoc label row with
                                | Some w => w
                                | None => None
                                end) rows) == 1)%Q
  /\ (forall i y, nth_error ys i = Some y -> ~ In label y ->
        exists row, nth_error rows i = Some row /\ assoc label row = Some None).
Proof.
  intros Hml Hne Hex ratios rows.
  set (cols := weights_columns minority_labels ratios).
  assert (Hrows : rows = map (fun i => map (fun '(l, col) => (l, nth i col None)) cols)
                             (seq 0 (length ys))).
  { unfold rows, weights_iterrows, cols, weights_columns.
    destruct minority_labels; [destruct Hml|reflexivity]. }
  assert (Hcell : forall i, assoc label (map (fun '(l, col) => (l, nth i col None)) cols)
                            = Some (nth i (label_weights label ratios) None)).
  { intros i. apply (assoc_weights_row minority_labels (fun l => label_weights l ratios)).
    exact Hml. }
  assert (Hlen : length (label_weights label ratios) = length ys).
  { unfold label_weights, ratios. rewrite !length_map. reflexivity. }
  assert (Hassoc : forall y, In label y ->
            assoc label (snd (_generate_classes_stats y majority_label thr k))
            = Some (inject_Z (count y majority_label + 1) / inject_Z (count y label + 1))%Q).
  { intros y Hy. rewrite assoc_generate_classes_stats.
    apply Z.eqb_neq in Hne. rewrite Hne.
    destruct (in_dec Z.eq_dec label y); [reflexivity|contradiction]. }
  split.
  - rewrite Hrows, map_map.
    rewrite (map_ext _ (fun i => nth i (label_weights label ratios) None))
      by (intros i; rewrite Hcell; reflexivity).
    rewrite <- Hlen, map_nth_seq_length.
    unfold label_weights. rewrite sum_defined_scale.
    set (lw := map (fun ratio => assoc label ratio) ratios).
    assert (Hpos : (0 < sum_defined lw)%Q).
    { apply sum_defined_pos.
      - intros v Hv. unfold lw, ratios in Hv. rewrite map_map in Hv.
        apply in_map_iff in Hv as [y [Hy _]].
        rewrite assoc_generate_classes_stats in Hy.
        destruct (Z.eqb label majority_label); [discriminate|].
        destruct (in_dec Z.eq_dec label y); [|discriminate].
        injection Hy as <-. apply modified_ratio_pos.
      - destruct Hex as [y [Hy Hly]].
        exists (inject_Z (count y majority_label + 1) / inject_Z (count y label + 1))%Q.
        unfold lw, ratios. rewrite map_map. apply in_map_iff.
        exists y. split; [apply Hassoc; exact Hly|exact Hy]. }
    unfold Qdiv. apply Qmult_inv_r. intros H0. rewrite H0 in Hpos.
    apply (Qlt_irrefl 0). exact Hpos.
  - intros i y Hi Hly.
    assert (Hlt : (i < length ys)%nat)
      by (apply nth_error_Some; rewrite Hi; discriminate).
    exists (map (fun '(l, col) => (l, nth i col None)) cols). split.
    + rewrite Hrows, nth_error_map, nth_error_seq.
      apply Nat.ltb_lt in Hlt. rewrite Hlt. reflexivity.
    + rewrite Hcell. f_equal. apply nth_error_nth.
      unfold label_weights, ratios. rewrite !nth_error_map, Hi. cbn [option_map].
      rewrite assoc_generate_classes_stats.
      destruct (Z.eqb label majority_label); [reflexivity|].
      destruct (in_dec Z.eq_dec label y); [contradiction|reflexivity].
Qed.

Lemma weights_sum_to_one_witness :
  Qeq (sum_defined
     (map (fun row => match assoc 1 row with Some w => w | None => None end)
          (weights_iterrows
             (weights_columns [1; 2]
                (map (fun y => snd (_generate_classes_stats y 0 3 None))
                     [[0; 0; 1]; [0; 1; 1]; [0; 0; 2]]))
             (length [[0; 0; 1]; [0; 1; 1]; [0; 0; 2]])))) 1
  /\ (forall i y, nth_error [[0; 0; 1]; [0; 1; 1]; [0; 0; 2]] i = Some y -> ~ In 1 y ->
        exists row,
          nth_error (weights_iterrows
             (weights_columns [1; 2]
                (map (fun y => snd (_generate_classes_stats y 0 3 None))
                     [[0; 0; 1]; [0; 1; 1]; [0; 0; 2]]))
             (length [[0; 0; 1]; [0; 1; 1]; [0; 0; 2]])) i = Some row
          /\ assoc 1 row = Some None).
Proof.
  apply (weights_sum_to_one [[0; 0; 1]; [0; 1; 1]; [0; 0; 2]] 0 3 None [1; 2] 1).
  - simpl. auto.
  - discriminate.
  - exists [0; 0; 1]. simpl. auto.
Defined.

(** ** Partition by categorical values *)

Lemma cell_eqb_refl c : cell_eqb c c = true.
Proof. destruct c; simpl; [apply Qeq_bool_refl|reflexivity]. Qed.

Lemma cell_eqb_sym a b : cell_eqb a b = cell_eqb b a.
Proof. destruct a, b; simpl; auto using Qeq_bool_comm. Qed.

Lemma cell_eqb_trans a b c :
  cell_eqb a b = true -> cell_eqb b c = true -> cell_eqb a c = true.
Proof.
  destruct a, b, c; simpl; try discriminate; auto. apply Qeq_bool_trans.
Qed.

Lemma key_eqb_refl k : key_eqb k k = true.
Proof. induction k; simpl; [reflexivity|]. rewrite cell_eqb_refl. exact IHk. Qed.

Lemma key_eqb_sym a b : key_eqb a b = key_eqb b a.
Proof.
  revert b; induction a as [|x a IH]; intros [|y b]; simpl; auto.
  rewrite cell_eqb_sym, IH. reflexivity.
Qed.

Lemma key_eqb_trans a b c :
  key_eqb a b = true -> key_eqb b c = true -> key_eqb a c = true.
Proof.
  revert b c; induction a as [|x a IH]; intros [|y b] [|z c]; simpl; try discriminate; auto.
  intros H1 H2. apply andb_prop in H1 as [H1 H1']. apply andb_prop in H2 as [H2 H2'].
  rewrite (cell_eqb_trans _ _ _ H1 H2). simpl. eapply IH; eauto.
Qed.

Lemma key_eqb_nan a b :
  key_eqb a b = true -> existsb is_nan a = existsb is_nan b.
Proof.
  revert b; induction a as [|x a IH]; intros [|y b]; simpl; try discriminate; auto.
  intros H. apply andb_prop in H as [Hc Hk]. rewrite (IH b Hk).
  destruct x, y; simpl in *; congruence.
Qed.

Definition keys_distinct : list (list cell) -> Prop :=
  ForallOrdPairs (fun a b => key_eqb a b = false).

Lemma keys_distinct_snoc acc k :
  keys_distinct acc -> existsb (key_eqb k) acc = false -> keys_distinct (acc ++ [k]).
Proof.
  unfold keys_distinct.
  induction acc as [|a acc IH]; simpl; intros Hd Hnot.
  - constructor; [constructor|constructor].
  - apply Bool.orb_false_iff in Hnot as [Hka Hnot].
    inversion Hd as [|? ? Hall Hd']; subst.
    constructor; [|apply IH; assumption].
    apply Forall_app. split; [exact Hall|].
    constructor; [rewrite key_eqb_sym; exact Hka|constructor].
Qed.

Lemma existsb_snoc_mono (acc : list (list cell)) k k' :
  existsb (key_eqb k) acc = true -> existsb (key_eqb k) (acc ++ [k']) = true.
Proof. intros H. rewrite existsb_app, H. reflexivity. Qed.

Lemma group_keys_fold cc (df : list df_row) acc :
  keys_distinct acc -> Forall (fun k => existsb is_nan k = false) acc ->
  let res := fold_left (fun acc '(row, _) =>
               let k := row_key cc row in
               if existsb is_nan k || existsb (key_eqb k) acc then acc
               else acc ++ [k]) df acc in
  keys_distinct res /\ Forall (fun k => existsb is_nan k = false) res
  /\ (forall k, existsb (key_eqb k) acc = true -> existsb (key_eqb k) res = true)
  /\ (forall row lab, In (row, lab) df -> existsb is_nan (row_key cc row) = false ->
        existsb (key_eqb (row_key cc row)) res = true).
Proof.
  revert acc; induction df as [|[row lab] df IH]; intros acc Hd Hn; simpl.
  - repeat split; auto; intros ? ? [].
  - set (k := row_key cc row).
    assert (Hstep : keys_distinct (if existsb is_nan k || existsb (key_eqb k) acc then acc
                                   else acc ++ [k])
             /\ Forall (fun k => existsb is_nan k = false)
                  (if existsb is_nan k || existsb (key_eqb k) acc then acc else acc ++ [k])
             /\ (forall k', existsb (key_eqb k') acc = true ->
                   existsb (key_eqb k')
                     (if existsb is_nan k || existsb (key_eqb k) acc then acc
                      else acc ++ [k]) = true)
             /\ (existsb is_nan k = false ->
                   existsb (key_eqb k)
                     (if existsb is_nan k || existsb (key_eqb k) acc then acc
                      else acc ++ [k]) = true)).
    { destruct (existsb is_nan k) eqn:En; simpl.
      - repeat split; auto. discriminate.
      - destruct (existsb (key_eqb k) acc) eqn:Ee.
        + repeat split; auto.
        + repeat split.
          * apply keys_distinct_snoc; assumption.
          * apply Forall_app. split; [exact Hn|constructor; [exact En|constructor]].
          * intros k' Hk'. apply existsb_snoc_mono. exact Hk'.
          * intros _. rewrite existsb_app. simpl. rewrite key_eqb_refl.
            rewrite Bool.orb_true_r. reflexivity. }
    destruct Hstep as (Hd1 & Hn1 & Hm1 & Hk1).
    destruct (IH _ Hd1 Hn1) as (Hd2 & Hn2 & Hm2 & Hc2).
    repeat split; [exact Hd2|exact Hn2| |].
    + intros k' Hk'. apply Hm2, Hm1, Hk'.
    + intros row' lab' [Heq|Hin] Hnan.
      * injection Heq as -> ->. apply Hm2, Hk1, Hnan.
      * apply (Hc2 row' lab' Hin Hnan).
Qed.

Lemma group_keys_props cc df :
  keys_distinct (group_keys cc df)
  /\ Forall (fun k => existsb is_nan k = false) (group_keys cc df)
  /\ (forall row lab, In (row, lab) df -> existsb is_nan (row_key cc row) = false ->
        existsb (key_eqb (row_key cc row)) (group_keys cc df) = true).
Proof.
  destruct (group_keys_fold cc df [] (FOP_nil _) (Forall_nil _)) as (H1 & H2 & _ & H4).
  unfold group_keys. auto.
Qed.

Lemma count_matching_keys (keys : list (list cell)) x :
  keys_distinct keys -> existsb (key_eqb x) keys = true ->
  length (filter (fun k => key_eqb k x) keys) = 1%nat.
Proof.
  unfold keys_distinct.
  induction keys as [|k0 keys IH]; simpl; intros Hd Hex; [discriminate|].
  inversion Hd as [|? ? Hall Hd']; subst.
  destruct (key_eqb k0 x) eqn:E.
  - simpl. f_equal.
    assert (filter (fun k => key_eqb k x) keys = []) as ->; [|reflexivity].
    clear IH Hex Hd' Hd. induction Hall as [|k' keys Hk' Hall IHall]; [reflexivity|].
    simpl. destruct (key_eqb k' x) eqn:E'; [|exact IHall].
    rewrite key_eqb_sym in E'.
    rewrite (key_eqb_trans _ _ _ E E') in Hk'. discriminate.
  - apply IH; [exact Hd'|].
    rewrite key_eqb_sym in E. rewrite E in Hex. exact Hex.
Qed.

(** A row whose categorical values are all numbers lies in exactly one
    group (one key of [df.groupby(categorical_cols)] matches its key, as
    [pd.merge] matches); a row with a NaN among its categorical values lies
    in no group, since the grouping drops NaN keys. *)
Theorem partition_total_on_non_nan_keys cc df row lab :
  In (row, lab) df ->
  (existsb is_nan (row_key cc row) = false ->
     length (filter (fun k => key_eqb k (row_key cc row)) (group_keys cc df)) = 1%nat)
  /\ (existsb is_nan (row_key cc row) = true ->
     filter (fun k => key_eqb k (row_key cc row)) (group_keys cc df) = []).
Proof.
  intros Hin. destruct (group_keys_props cc df) as (Hd & Hn & Hc). split.
  - intros Hnan. apply count_matching_keys; [exact Hd|]. apply (Hc row lab Hin Hnan).
  - intros Hnan. clear Hd Hc. revert Hn.
    generalize (group_keys cc df) as keys.
    intros keys Hn. induction Hn as [|k keys Hk Hn IHn]; [reflexivity|].
    simpl. destruct (key_eqb k (row_key cc row)) eqn:E.
    + apply key_eqb_nan in E. congruence.
    + exact IHn.
Qed.

Lemma partition_total_on_non_nan_keys_witness :
  ((existsb is_nan (row_key [0] [Num 1; Num 5]) = false ->
    length (filter (fun k => key_eqb k (row_key [0] [Num 1; Num 5]))
              (group_keys [0] [([Num 0; Num 2], 0); ([Num 1; Num 5], 1); ([NaN; Num 3], 0)]))
    = 1%nat)
   /\ (existsb is_nan (row_key [0] [Num 1; Num 5]) = true ->
       filter (fun k => key_eqb k (row_key [0] [Num 1; Num 5]))
         (group_keys [0] [([Num 0; Num 2], 0); ([Num 1; Num 5], 1); ([NaN; Num 3], 0)]) = []))
  /\ existsb is_nan (row_key [0] [Num 1; Num 5]) = false.
Proof.
  split; [|reflexivity].
  apply (partition_total_on_non_nan_keys [0]
           [([Num 0; Num 2], 0); ([Num 1; Num 5], 1); ([NaN; Num 3], 0)] [Num 1; Num 5] 1).
  simpl. auto.
Defined.


(** ** Shape of a successful call *)

Lemma sample_ok_shape ps cfg X y s Xo yo s' cc :
  categorical_cols cfg = Some cc ->
  _sample ps cfg X y s = (Ok (Xo, yo), s') ->
  exists ic maj (out : list (list cell) * list Z),
    integer_cols cfg = Some ic
    /\ majority_label_of (ratio_ s) = Ok maj
    /\ Xo = round_integer_cols ic
              (fst out ++ map fst (excluded_rows cc (combine (X_rows X) y)
                   (classes_stats_of cc (combine (X_rows X) y) maj
                      (imbalance_ratio_threshold cfg) (k_neighbors cfg)))).
Proof.
  intros Hcc. rewrite sample_eq.
  destruct (check_random_state (random_state cfg)); [|discriminate]. rewrite Hcc.
  destruct (integer_cols cfg) as [ic|] eqn:Hic; [|discriminate].
  destruct (negb (cols_ok _ (Some ic))); [discriminate|].
  destruct (negb (cols_ok _ (Some cc))); [discriminate|].
  destruct (negb (isdisjoint _ cc)); [discriminate|].
  destruct (Qle_bool _ 0); [discriminate|].
  rewrite resample_groups_eq.
  destruct (majority_label_of (ratio_ s)) as [maj|err] eqn:Hmaj; [|discriminate].
  cbv zeta.
  remember (classes_stats_of cc (combine (X_rows X) y) maj
              (imbalance_ratio_threshold cfg) (k_neighbors cfg)) as cs eqn:Ecs.
  destruct cs as [|c0 cs']; [discriminate|].
  match goal with
  | |- context [oversample_groups ?a1 ?a2 ?a3 ?a4 ?a5 ?a6 ?a7 ?st] =>
      destruct (oversample_groups a1 a2 a3 a4 a5 a6 a7 st) as [[o|err] s2]
  end; [|discriminate].
  intros H. injection H as HX _ _.
  exists ic, maj, o. repeat split; auto.
  rewrite <- HX, <- Ecs. reflexivity.
Qed.

Lemma In_excluded_rows cc df classes_stats row lab k st :
  In (row, lab) df -> In (k, st) classes_stats -> fst st = false ->
  key_eqb k (row_key cc row) = true ->
  In (row, lab) (excluded_rows cc df classes_stats).
Proof.
  intros Hin Hst Hex Hk. unfold excluded_rows, merge_rows.
  apply filter_In. split; [exact Hin|].
  apply existsb_exists. exists (k, st). split; [|exact Hk].
  apply filter_In. split; [exact Hst|]. rewrite Hex. reflexivity.
Qed.

(** C7 (corrected).  A row of an excluded group is in the output of
    [_sample], with its [integer_cols] values passed through the final
    [np.round(...).astype(int)] and its other values unchanged. *)
Theorem excluded_row_kept_up_to_rounding ps cfg X y s Xo yo s' cc ic maj row lab k st :
  categorical_cols cfg = Some cc -> integer_cols cfg = Some ic ->
  majority_label_of (ratio_ s) = Ok maj ->
  _sample ps cfg X y s = (Ok (Xo, yo), s') ->
  In (row, lab) (combine (X_rows X) y) ->
  In (k, st) (classes_stats_of cc (combine (X_rows X) y) maj
                (imbalance_ratio_threshold cfg) (k_neighbors cfg)) ->
  fst st = false -> key_eqb k (row_key cc row) = true ->
  In (round_row ic 0 row) Xo.
Proof.
  intros Hcc Hic Hmaj Hrun Hin Hst Hex Hk.
  destruct (sample_ok_shape ps cfg X y s Xo yo s' cc Hcc Hrun)
    as (ic' & maj' & out & Hic' & Hmaj' & ->).
  rewrite Hic in Hic'. injection Hic' as <-.
  rewrite Hmaj in Hmaj'. injection Hmaj' as <-.
  unfold round_integer_cols. apply in_map, in_or_app. right.
  apply (in_map fst _ (row, lab)).
  eapply In_excluded_rows; eassumption.
Qed.

Lemma excluded_row_kept_up_to_rounding_witness :
  In (round_row [1] 0 [Num 0; Num (1 # 2)]) [[Num 0; Num 0]; [Num 0; Num 1]; [Num 1; Num 1]].
Proof.
  apply (excluded_row_kept_up_to_rounding identity_sampler cfg_one_cat X_half y_half
           state_two_groups [[Num 0; Num 0]; [Num 0; Num 1]; [Num 1; Num 1]] [0; 1; 0]
           state_two_groups [0] [1] 0 [Num 0; Num (1 # 2)] 0 [Num 0] (false, [(1%Z, (2 # 2)%Q)])).
  - reflexivity.
  - reflexivity.
  - reflexivity.
  - vm_compute. reflexivity.
  - simpl. auto.
  - vm_compute. auto.
  - reflexivity.
  - vm_compute. reflexivity.
Defined.

(** C7, counterexample: the row [[0, 0.5]] of an excluded group is not in
    the output; [[0, 0]] is there instead. *)
Lemma excluded_row_changed_by_rounding :
  fst (_sample identity_sampler cfg_one_cat X_half y_half state_two_groups)
  = Ok ([[Num 0; Num 0]; [Num 0; Num 1]; [Num 1; Num 1]], [0; 1; 0])
  /\ In ([Num 0], (false, [(1, (2 # 2)%Q)]))
        (classes_stats_of [0] (combine (X_rows X_half) y_half) 0 1 None)
  /\ ~ In [Num 0; Num (1 # 2)] [[Num 0; Num 0]; [Num 0; Num 1]; [Num 1; Num 1]].
Proof.
  split; [vm_compute; reflexivity|]. split; [vm_compute; auto|].
  simpl. intros [H|[H|[H|[]]]]; injection H; intros; discriminate.
Qed.

(** ** Integer columns *)


Lemma nth_error_round_row ic j0 r j :
  nth_error (round_row ic j0 r) j
  = option_map (fun c => if mem_col (j0 + Z.of_nat j) ic then np_round_astype_int c else c)
               (nth_error r j).
Proof.
  revert j0 j; induction r as [|c r IH]; intros j0 [|j]; simpl; auto.
  - rewrite Z.add_0_r. reflexivity.
  - rewrite IH. replace (j0 + 1 + Z.of_nat j) with (j0 + Z.of_nat (S j)) by lia.
    reflexivity.
Qed.




(** * Further properties of the code *)

(** ** Validation of the column parameters *)

Lemma cols_ok_false_iff m cols :
  cols_ok m cols = false <->
  cols = None \/ cols = Some []
  \/ (exists l j, cols = Some l /\ In j l /\ (j < 0 \/ Z.of_nat m <= j)).
Proof.
  destruct cols as [l|]; simpl.
  - rewrite Bool.andb_false_iff, Bool.negb_false_iff, Nat.eqb_eq, length_zero_iff_nil.
    rewrite <- Bool.not_true_iff_false, forallb_forall. split.
    + intros [->|Hn]; [right; left; reflexivity|].
      right; right.
      destruct (existsb (fun j => negb ((0 <=? j) && (j <? Z.of_nat m))) l) eqn:E.
      * apply existsb_exists in E as [j [Hj Hb]].
        exists l, j. split; [reflexivity|]. split; [exact Hj|].
        apply Bool.negb_true_iff, Bool.andb_false_iff in Hb.
        destruct Hb as [Hb|Hb]; [apply Z.leb_gt in Hb|apply Z.ltb_ge in Hb]; lia.
      * exfalso. apply Hn. intros j Hj.
        destruct ((0 <=? j) && (j <? Z.of_nat m)) eqn:Hb; [reflexivity|].
        rewrite <- Bool.not_true_iff_false in E. exfalso. apply E, existsb_exists.
        exists j. split; [exact Hj|]. rewrite Hb. reflexivity.
    + intros [H|[H|(l' & j & H & Hj & Hr)]]; [discriminate| |].
      * injection H as ->. left; reflexivity.
      * injection H as <-. right. intros Hall. specialize (Hall j Hj).
        apply andb_prop in Hall as [H1 H2]. apply Z.leb_le in H1. apply Z.ltb_lt in H2. lia.
  - split; [intros _; left; reflexivity|reflexivity].
Qed.

(** With categorical columns configured, a missing or empty [integer_cols]
    or [categorical_cols], or one holding an index outside
    [0 .. n_features-1], makes [_sample] raise [ValueError] before any
    work: the state is unchanged. *)
Theorem invalid_columns_rejected ps cfg X y s cc :
  categorical_cols cfg = Some cc ->
  (integer_cols cfg = None \/ integer_cols cfg = Some []
   \/ (exists ic j, integer_cols cfg = Some ic /\ In j ic
                    /\ (j < 0 \/ Z.of_nat (n_features X) <= j))
   \/ cc = [] \/ (exists j, In j cc /\ (j < 0 \/ Z.of_nat (n_features X) <= j))) ->
  _sample ps cfg X y s = (Err ValueError, s).
Proof.
  intros Hcc Hbad. rewrite sample_eq.
  destruct (check_random_state (random_state cfg)) as [u|e] eqn:Hrs.
  2:{ apply check_random_state_error in Hrs. subst e. reflexivity. }
  rewrite Hcc.
  destruct Hbad as [H|[H|[(ic & j & H & Hj & Hr)|[H|(j & Hj & Hr)]]]].
  - assert (cols_ok (n_features X) (integer_cols cfg) = false) as ->
      by (apply cols_ok_false_iff; auto). reflexivity.
  - assert (cols_ok (n_features X) (integer_cols cfg) = false) as ->
      by (apply cols_ok_false_iff; auto). reflexivity.
  - assert (cols_ok (n_features X) (integer_cols cfg) = false) as ->
      by (apply cols_ok_false_iff; right; right; exists ic, j; auto). reflexivity.
  - destruct (negb (cols_ok _ (integer_cols cfg))); [reflexivity|].
    assert (cols_ok (n_features X) (Some cc) = false) as ->
      by (apply cols_ok_false_iff; subst; auto). reflexivity.
  - destruct (negb (cols_ok _ (integer_cols cfg))); [reflexivity|].
    assert (cols_ok (n_features X) (Some cc) = false) as ->
      by (apply cols_ok_false_iff; right; right; exists cc, j; auto). reflexivity.
Qed.

Lemma invalid_columns_rejected_witness :
  _sample identity_sampler
    {| integer_cols := Some [2]; categorical_cols := Some [0];
       imbalance_ratio_threshold := 3%Q; k_neighbors := None; random_state := RSNone |}
    X_two_groups y_two_groups state_two_groups
  = (Err ValueError, state_two_groups).
Proof.
  apply (invalid_columns_rejected identity_sampler
           {| integer_cols := Some [2]; categorical_cols := Some [0];
              imbalance_ratio_threshold := 3%Q; k_neighbors := None; random_state := RSNone |}
           X_two_groups y_two_groups state_two_groups [0]).
  - reflexivity.
  - right; right; left. exists [2], 2. simpl. split; [reflexivity|]. split; [auto|lia].
Defined.

Lemma find_ratio_none (ratio : list (Z * Z)) :
  (forall l n, In (l, n) ratio -> n <> 0) ->
  find (fun '(_, n) => Z.eqb n 0) ratio = None.
Proof.
  induction ratio as [|[l n] ratio IH]; simpl; intros H; [reflexivity|].
  assert (Z.eqb n 0 = false) as -> by (apply Z.eqb_neq, (H l); left; reflexivity).
  apply IH. intros l' n' Hin. apply (H l'). right; exact Hin.
Qed.

(** When [random_state] is accepted and the parameters pass validation,
    but no label of [ratio_] has
    target 0 (there is no majority label), [_sample] raises [IndexError]
    (line 123) with the state unchanged. *)
Theorem no_majority_label_index_error ps cfg X y s cc :
  check_random_state (random_state cfg) = Ok tt ->
  categorical_cols cfg = Some cc ->
  cols_ok (n_features X) (integer_cols cfg) = true ->
  cols_ok (n_features X) (Some cc) = true ->
  isdisjoint (match integer_cols cfg with Some l => l | None => [] end) cc = true ->
  (0 < imbalance_ratio_threshold cfg)%Q ->
  (forall l n, In (l, n) (ratio_ s) -> n <> 0) ->
  _sample ps cfg X y s = (Err IndexError, s).
Proof.
  intros Hrs Hcc Hi Hc Hd Ht Hr. rewrite sample_eq, Hrs, Hcc, Hi, Hc, Hd. cbn [negb].
  assert (Qle_bool (imbalance_ratio_threshold cfg) 0 = false) as ->.
  { apply Bool.not_true_iff_false. rewrite Qle_bool_iff. apply Qlt_not_le. exact Ht. }
  assert (majority_label_of (ratio_ s) = Err IndexError) as Hm
    by (unfold majority_label_of; rewrite (find_ratio_none _ Hr); reflexivity).
  rewrite resample_groups_eq, Hm. reflexivity.
Qed.

Lemma no_majority_label_index_error_witness :
  _sample identity_sampler cfg_two_groups X_two_groups y_two_groups
    {| ratio_ := [(0, 3); (1, 2)]; n_overasmpled_groups_ := 0 |}
  = (Err IndexError, {| ratio_ := [(0, 3); (1, 2)]; n_overasmpled_groups_ := 0 |}).
Proof.
  apply (no_majority_label_index_error identity_sampler cfg_two_groups X_two_groups
           y_two_groups {| ratio_ := [(0, 3); (1, 2)]; n_overasmpled_groups_ := 0 |} [0]).
  - reflexivity.
  - reflexivity.
  - reflexivity.
  - reflexivity.
  - reflexivity.
  - vm_compute. reflexivity.
  - simpl. intros l n [H|[H|[]]]; injection H; intros; subst; discriminate.
Defined.

(** ** Group statistics *)

(** The modified imbalance ratios returned by [_generate_classes_stats]
    have an entry exactly for the non-majority labels present in the group;
    an absent label has no entry (not 0), and each entry is
    [(count(majority) + 1) / (count(label) + 1)], a positive number. *)
Theorem modified_ratio_entries y majority_label thr k label :
  (In label y -> label <> majority_label ->
     assoc label (snd (_generate_classes_stats y majority_label thr k))
     = Some (inject_Z (count y majority_label + 1) / inject_Z (count y label + 1))%Q)
  /\ (~ In label y \/ label = majority_label ->
     assoc label (snd (_generate_classes_stats y majority_label thr k)) = None)
  /\ (forall v, assoc label (snd (_generate_classes_stats y majority_label thr k)) = Some v ->
     (0 < v)%Q).
Proof.
  rewrite assoc_generate_classes_stats. repeat split.
  - intros Hin Hne. apply Z.eqb_neq in Hne. rewrite Hne.
    destruct (in_dec Z.eq_dec label y); [reflexivity|contradiction].
  - intros [Hn|He].
    + destruct (Z.eqb label majority_label); [reflexivity|].
      destruct (in_dec Z.eq_dec label y); [contradiction|reflexivity].
    + subst. rewrite Z.eqb_refl. reflexivity.
  - intros v. destruct (Z.eqb label majority_label); [discriminate|].
    destruct (in_dec Z.eq_dec label y); [|discriminate].
    intros H; injection H as <-. apply modified_ratio_pos.
Qed.

(** Raising [imbalance_ratio_threshold], or lowering [k_neighbors] (or
    dropping it), never turns an included group into an excluded one. *)
Theorem include_group_monotone y majority_label thr thr' k k' :
  (thr <= thr')%Q ->
  (forall kk', k' = Some kk' -> exists kk, k = Some kk /\ kk' <= kk) ->
  fst (_generate_classes_stats y majority_label thr k) = true ->
  fst (_generate_classes_stats y majority_label thr' k') = true.
Proof.
  intros Hthr Hk. unfold _generate_classes_stats. simpl.
  rewrite !existsb_exists. intros [[l [ir n]] [Hin Hsel]].
  exists (l, (ir, n)). split; [exact Hin|].
  assert (Hlt : Qltb ir thr = true -> Qltb ir thr' = true).
  { intros H. apply Qltb_iff in H. apply Qltb_iff. eapply Qlt_le_trans; eauto. }
  destruct k' as [kk'|].
  - destruct (Hk kk' eq_refl) as [kk [-> Hle]].
    apply andb_prop in Hsel as [H1 H2]. rewrite (Hlt H1). simpl.
    apply Z.ltb_lt in H2. apply Z.ltb_lt. lia.
  - destruct k as [kk|].
    + apply andb_prop in Hsel as [H1 _]. apply (Hlt H1).
    + apply (Hlt Hsel).
Qed.

Lemma include_group_monotone_witness :
  fst (_generate_classes_stats [0; 0; 1] 0 4 None) = true.
Proof.
  apply (include_group_monotone [0; 0; 1] 0 3 4 (Some 0) None).
  - vm_compute. discriminate.
  - intros kk' H. discriminate.
  - vm_compute. reflexivity.
Defined.

(** ** Oversampling weights *)

Lemma Qdiv_nonneg a b : (0 <= a)%Q -> (0 <= b)%Q -> (0 <= a / b)%Q.
Proof.
  intros Ha Hb. unfold Qdiv. apply Qmult_le_0_compat; [exact Ha|].
  apply Qinv_le_0_compat. exact Hb.
Qed.

Lemma le_sum_defined (lw : list (option Q)) v :
  (forall u, In (Some u) lw -> 0 <= u)%Q -> In (Some v) lw -> (v <= sum_defined lw)%Q.
Proof.
  induction lw as [|[w|] lw IH]; simpl; intros Hpos Hin; [destruct Hin| |].
  - destruct Hin as [Hin|Hin].
    + injection Hin as ->.
      apply (Qle_trans _ (v + 0)); [rewrite Qplus_0_r; apply Qle_refl|].
      apply Qplus_le_compat; [apply Qle_refl|]. apply sum_defined_nonneg; auto.
    + apply (Qle_trans _ (0 + v)); [rewrite Qplus_0_l; apply Qle_refl|].
      apply Qplus_le_compat; [apply Hpos; left; reflexivity|]. apply IH; auto.
  - destruct Hin as [Hin|Hin]; [discriminate|]. apply IH; auto.
Qed.

Lemma label_weights_values ys majority_label thr k label w :
  In (Some w)
    (label_weights label (map (fun y => snd (_generate_classes_stats y majority_label thr k)) ys)) ->
  (0 < w <= 1)%Q.
Proof.
  unfold label_weights. set (lw := map (fun ratio => assoc label ratio) _).
  assert (Hpos : forall v, In (Some v) lw -> (0 < v)%Q).
  { intros v Hv. unfold lw in Hv. rewrite map_map in Hv.
    apply in_map_iff in Hv as [y [Hy _]]. cbv beta in Hy.
    rewrite assoc_generate_classes_stats in Hy.
    destruct (Z.eqb label majority_label); [discriminate|].
    destruct (in_dec Z.eq_dec label y); [|discriminate].
    injection Hy as <-. apply modified_ratio_pos. }
  intros Hw. apply in_map_iff in Hw as [[v|] [Hv Hin]]; [|discriminate].
  injection Hv as <-.
  assert (Hs : (0 < sum_defined lw)%Q)
    by (apply sum_defined_pos; [exact Hpos|exists v; exact Hin]).
  pose proof (Hpos v Hin) as Hv0.
  pose proof (le_sum_defined lw v (fun u Hu => Qlt_le_weak _ _ (Hpos u Hu)) Hin) as Hvs.
  split.
  - apply Qlt_shift_div_l; [exact Hs|]. rewrite Qmult_0_l. exact Hv0.
  - apply Qle_shift_div_r; [exact Hs|]. rewrite Qmult_1_l. exact Hvs.
Qed.

(** Every weight the loop reads ([weight[label]] of a row of
    [weights.iterrows()]) that is not NaN lies in (0, 1]. *)
Theorem weights_in_unit_interval (ys : list (list Z)) majority_label thr k
    (minority_labels : list Z) label i row w :
  In label minority_labels ->
  nth_error (weights_iterrows
               (weights_columns minority_labels
                  (map (fun y => snd (_generate_classes_stats y majority_label thr k)) ys))
               (length ys)) i = Some row ->
  assoc label row = Some (Some w) ->
  (0 < w <= 1)%Q.
Proof.
  intros Hml Hrow Hw.
  set (ratios := map (fun y => snd (_generate_classes_stats y majority_label thr k)) ys) in *.
  destruct minority_labels as [|l0 ml]; [destruct Hml|].
  assert (Hrows : weights_iterrows (weights_columns (l0 :: ml) ratios) (length ys)
                  = map (fun i => map (fun '(l, col) => (l, nth i col None))
                                      (map (fun l => (l, label_weights l ratios)) (l0 :: ml)))
                        (seq 0 (length ys))) by reflexivity.
  rewrite Hrows, nth_error_map, nth_error_seq in Hrow.
  destruct (Nat.ltb i (length ys)) eqn:Hi; [|discriminate].
  injection Hrow as <-. cbv beta in Hw.
  pose proof (assoc_weights_row (l0 :: ml) (fun l => label_weights l ratios) i label Hml) as Ha.
  cbn [map] in Ha, Hw. rewrite Ha in Hw.
  injection Hw as Hw.
  apply (label_weights_values ys majority_label thr k label w).
  rewrite <- Hw. apply nth_In. fold ratios.
  unfold label_weights, ratios. rewrite !length_map. apply Nat.ltb_lt. exact Hi.
Qed.

Lemma weights_in_unit_interval_witness :
  (0 < 12 # 24 <= 1)%Q.
Proof.
  apply (weights_in_unit_interval [[0; 0; 1]; [0; 0; 1]] 0 3 None [1] 1 0
           [(1%Z, Some (12 # 24)%Q)]).
  - simpl. auto.
  - vm_compute. reflexivity.
  - reflexivity.
Defined.

(** ** Reassembling a resampled group *)

Lemma mem_col_index_of j cc :
  mem_col j cc = match index_of j cc with Some _ => true | None => false end.
Proof.
  unfold mem_col. induction cc as [|a cc IH]; simpl; [reflexivity|].
  destruct (Z.eqb j a); simpl; [reflexivity|].
  rewrite IH. destruct (index_of j cc); reflexivity.
Qed.

Lemma mem_col_In j cc : mem_col j cc = true -> In j cc.
Proof.
  unfold mem_col. intros E. apply existsb_exists in E as [x [Hx Ex]].
  apply Z.eqb_eq in Ex. subst x. exact Hx.
Qed.

Lemma index_of_nth_error j cc p :
  index_of j cc = Some p -> nth_error cc p = Some j.
Proof.
  revert p. induction cc as [|a cc IH]; simpl; intros p H; [discriminate|].
  destruct (Z.eqb j a) eqn:E.
  - injection H as <-. apply Z.eqb_eq in E. subst. reflexivity.
  - destruct (index_of j cc) as [p'|] eqn:Ei; simpl in H; [|discriminate].
    injection H as <-. simpl. apply IH. reflexivity.
Qed.

Lemma index_of_NoDup j cc p :
  NoDup cc -> nth_error cc p = Some j -> index_of j cc = Some p.
Proof.
  revert p. induction cc as [|a cc IH]; intros p Hnd H; [destruct p; discriminate|].
  inversion Hnd as [|x l Hnin Hnd']; subst.
  destruct p as [|p]; simpl in H |- *.
  - injection H as ->. rewrite Z.eqb_refl. reflexivity.
  - destruct (Z.eqb_spec j a) as [->|Hne].
    + exfalso. apply Hnin. apply nth_error_In in H. exact H.
    + rewrite (IH p Hnd' H). reflexivity.
Qed.

Lemma filter_all {A : Type} (f : A -> bool) (l : list A) :
  (forall x, In x l -> f x = true) -> filter f l = l.
Proof.
  induction l as [|a l IH]; simpl; intros H; [reflexivity|].
  rewrite (H a (or_introl eq_refl)). f_equal. apply IH. auto.
Qed.

Lemma split_count cc j n :
  NoDup cc ->
  length (filter (fun c => (j <=? c) && (c <? j + Z.of_nat (S n))) cc)
  = ((if mem_col j cc then 1 else 0)
     + length (filter (fun c => ((j + 1 <=? c) && (c <? j + 1 + Z.of_nat n))%Z) cc))%nat.
Proof.
  induction cc as [|a cc IH]; intros Hnd; [reflexivity|].
  inversion Hnd as [|x l Hnin Hnd']; subst.
  specialize (IH Hnd').
  change (mem_col j (a :: cc)) with (Z.eqb j a || mem_col j cc).
  cbn [filter].
  destruct (Z.eqb_spec j a) as [<-|Hne].
  - assert (Hm : mem_col j cc = false).
    { destruct (mem_col j cc) eqn:E; [|reflexivity].
      exfalso. apply Hnin, mem_col_In, E. }
    rewrite Hm in IH.
    replace ((j <=? j) && (j <? j + Z.of_nat (S n))) with true
      by (symmetry; apply andb_true_iff; split; [apply Z.leb_le|apply Z.ltb_lt]; lia).
    replace ((j + 1 <=? j) && (j <? j + 1 + Z.of_nat n)) with false
      by (symmetry; apply andb_false_iff; left; apply Z.leb_gt; lia).
    cbn [length orb]. lia.
  - assert (Hp : ((j <=? a) && (a <? j + Z.of_nat (S n)))
                 = ((j + 1 <=? a) && (a <? j + 1 + Z.of_nat n))).
    { destruct (Z.leb_spec j a), (Z.ltb_spec a (j + Z.of_nat (S n))),
        (Z.leb_spec (j + 1) a), (Z.ltb_spec a (j + 1 + Z.of_nat n));
        cbn [andb]; try reflexivity; exfalso; lia. }
    rewrite Hp. cbn [orb].
    destruct ((j + 1 <=? a) && (a <? j + 1 + Z.of_nat n)); cbn [length];
      destruct (mem_col j cc); lia.
Qed.

Lemma free_cols_count cc j n :
  NoDup cc ->
  (free_cols cc j n
   + length (filter (fun c => ((j <=? c) && (c <? j + Z.of_nat n))%Z) cc) = n)%nat.
Proof.
  intros Hnd. revert j. induction n as [|n IH]; intros j.
  - cbn [free_cols]. clear Hnd. induction cc as [|a cc IHc]; [reflexivity|].
    cbn [filter]. destruct (Z.leb_spec j a), (Z.ltb_spec a (j + Z.of_nat 0));
      cbn [andb]; try exact IHc. exfalso. lia.
  - cbn [free_cols]. rewrite split_count by exact Hnd.
    specialize (IH (j + 1)). destruct (mem_col j cc); lia.
Qed.

Lemma free_cols_range cc m :
  NoDup cc -> Forall (fun j => 0 <= j < Z.of_nat m) cc ->
  (free_cols cc 0 m + length cc = m)%nat.
Proof.
  intros Hnd Hr. pose proof (free_cols_count cc 0 m Hnd) as H.
  rewrite filter_all in H; [exact H|].
  intros x Hx. rewrite Forall_forall in Hr. specialize (Hr x Hx).
  apply andb_true_iff. split; [apply Z.leb_le|apply Z.ltb_lt]; lia.
Qed.

Lemma drop_cols_from_length cc j row :
  length (drop_cols_from cc j row) = free_cols cc j (length row).
Proof.
  revert j. induction row as [|c row IH]; intros j; [reflexivity|].
  cbn [drop_cols_from length free_cols].
  destruct (mem_col j cc); cbn [length]; rewrite IH; reflexivity.
Qed.

Lemma place_length cc gv j fuel num :
  length (place cc gv j fuel num) = fuel.
Proof.
  revert j num. induction fuel as [|f IH]; intros j num; [reflexivity|].
  cbn [place]. destruct (index_of j cc); [|destruct num]; cbn [length]; f_equal; apply IH.
Qed.

Lemma place_nth_cat cc gv fuel :
  forall j num t p, (t < fuel)%nat -> index_of (j + Z.of_nat t) cc = Some p ->
  nth t (place cc gv j fuel num) NaN = nth p gv NaN.
Proof.
  induction fuel as [|f IH]; intros j num t p Ht Hp; [lia|].
  destruct t as [|t].
  - rewrite Z.add_0_r in Hp. cbn [place]. rewrite Hp. reflexivity.
  - replace (j + Z.of_nat (S t)) with (j + 1 + Z.of_nat t) in Hp by lia.
    cbn [place]. destruct (index_of j cc); [|destruct num]; cbn [nth];
      apply IH; solve [lia | exact Hp].
Qed.

Lemma place_drop cc key :
  forall suffix j,
  (forall i p, (i < length suffix)%nat -> index_of (j + Z.of_nat i) cc = Some p ->
               nth p key NaN = nth i suffix NaN) ->
  place cc key j (length suffix) (drop_cols_from cc j suffix) = suffix.
Proof.
  induction suffix as [|c s IH]; intros j H; [reflexivity|].
  cbn [length drop_cols_from place]. rewrite mem_col_index_of.
  assert (IH' : place cc key (j + 1) (length s) (drop_cols_from cc (j + 1) s) = s).
  { apply IH. intros i p Hi Hp. apply (H (S i) p); [cbn [length]; lia|].
    replace (j + Z.of_nat (S i)) with (j + 1 + Z.of_nat i) by lia. exact Hp. }
  destruct (index_of j cc) as [p|] eqn:E.
  - rewrite IH'. f_equal. apply (H 0%nat p); [cbn [length]; lia|].
    rewrite Z.add_0_r. exact E.
  - rewrite IH'. reflexivity.
Qed.

Lemma drop_place cc gv :
  forall fuel j num, length num = free_cols cc j fuel ->
  drop_cols_from cc j (place cc gv j fuel num) = num.
Proof.
  induction fuel as [|f IH]; intros j num Hn.
  - destruct num; [reflexivity|discriminate].
  - cbn [free_cols] in Hn. rewrite mem_col_index_of in Hn.
    cbn [place]. destruct (index_of j cc) as [p|] eqn:E.
    + cbn [drop_cols_from]. rewrite mem_col_index_of, E. apply IH. exact Hn.
    + destruct num as [|v num]; [discriminate|].
      cbn [drop_cols_from]. rewrite mem_col_index_of, E.
      f_equal. apply IH. cbn [length] in Hn. lia.
Qed.

Lemma reassemble_cons_eq cc gv m Xg :
  Xg <> [] ->
  reassemble cc gv m Xg
  = if forallb (fun r => Nat.eqb (length r + length cc) m) Xg
    then Ok (map (place cc gv 0 m) Xg) else Err ValueError.
Proof. destruct Xg; [contradiction|reflexivity]. Qed.

Lemma reassemble_ok_inv cc gv m Xg out :
  reassemble cc gv m Xg = Ok out ->
  forallb (fun r => Nat.eqb (length r + length cc) m) Xg = true
  /\ out = map (place cc gv 0 m) Xg /\ Xg <> [].
Proof.
  destruct Xg as [|r0 Xg]; [discriminate|]. intros H.
  rewrite reassemble_cons_eq in H by discriminate.
  destruct (forallb _ _) eqn:Hw; [|discriminate].
  injection H as <-. split; [reflexivity|]. split; [reflexivity|discriminate].
Qed.

(** Lines 166-172 undo the [drop(columns=categorical_cols)] of line 161:
    rows of a group (of width [n_features], with the group's values in the
    categorical columns) whose remaining columns come back unchanged from
    [_partial_sample] are reassembled into exactly the original rows, with
    the categorical columns put back at their positions.  (An empty
    group makes [reshape(0, -1)] raise [ValueError], so [rows] is not
    empty.) *)
Theorem reassemble_restores_group_rows cc key m (rows : list (list cell)) :
  rows <> [] -> NoDup cc -> Forall (fun j => 0 <= j < Z.of_nat m) cc ->
  Forall (fun row => length row = m /\ row_key cc row = key) rows ->
  reassemble cc key m (map (drop_cols cc) rows) = Ok rows.
Proof.
  intros Hne Hnd Hr Hrows. rewrite Forall_forall in Hrows.
  pose proof (free_cols_range cc m Hnd Hr) as Hfree.
  rewrite reassemble_cons_eq
    by (destruct rows; [contradiction|discriminate]).
  replace (forallb _ (map (drop_cols cc) rows)) with true.
  2:{ symmetry. apply forallb_forall. intros r Hin.
      apply in_map_iff in Hin as [row [<- Hin]].
      destruct (Hrows row Hin) as [Hlen _].
      apply Nat.eqb_eq. unfold drop_cols. rewrite drop_cols_from_length, Hlen.
      exact Hfree. }
  f_equal. rewrite map_map. rewrite <- (map_id rows) at 2.
  apply map_ext_in. intros row Hin.
  destruct (Hrows row Hin) as [Hlen Hkey].
  rewrite <- Hlen. unfold drop_cols. apply place_drop.
  intros i p Hi Hp. rewrite <- Hkey. unfold row_key.
  apply index_of_nth_error in Hp.
  rewrite (nth_error_nth _ _ _ (map_nth_error _ _ _ Hp)).
  rewrite Z.add_0_l, Nat2Z.id. reflexivity.
Qed.

Lemma reassemble_restores_group_rows_witness :
  reassemble [0] [Num 7] 2 (map (drop_cols [0]) [[Num 7; Num 1]; [Num 7; NaN]])
  = Ok [[Num 7; Num 1]; [Num 7; NaN]].
Proof.
  apply reassemble_restores_group_rows.
  - discriminate.
  - constructor; [intros []|constructor].
  - repeat constructor; lia.
  - repeat constructor.
Defined.

(** Every row built by lines 166-172 has [n_features] cells, holds the
    group's value of each categorical column at that column's position,
    and carries the row returned by [_partial_sample], in order, in the
    other columns. *)
Theorem reassemble_layout cc gv m Xg out r :
  NoDup cc -> Forall (fun j => 0 <= j < Z.of_nat m) cc ->
  reassemble cc gv m Xg = Ok out -> In r out ->
  length r = m
  /\ (forall p j, nth_error cc p = Some j -> nth (Z.to_nat j) r NaN = nth p gv NaN)
  /\ exists num, In num Xg /\ drop_cols cc r = num.
Proof.
  intros Hnd Hr Hre Hin. apply reassemble_ok_inv in Hre as (Hw & -> & _).
  apply in_map_iff in Hin as [num [<- Hnum]].
  split; [apply place_length|split].
  - intros p j Hp.
    rewrite Forall_forall in Hr. pose proof (Hr j (nth_error_In _ _ Hp)) as Hj.
    apply place_nth_cat; [lia|].
    rewrite Z.add_0_l, Z2Nat.id by lia. apply index_of_NoDup; assumption.
  - exists num. split; [exact Hnum|]. apply drop_place.
    rewrite forallb_forall in Hw. apply Hw, Nat.eqb_eq in Hnum.
    pose proof (free_cols_range cc m Hnd Hr). lia.
Qed.

Lemma reassemble_layout_witness :
  length [Num 5; Num 2; Num 9] = 3%nat
  /\ (forall p j, nth_error [1] p = Some j ->
                  nth (Z.to_nat j) [Num 5; Num 2; Num 9] NaN = nth p [Num 2] NaN)
  /\ exists num, In num [[Num 5; Num 9]] /\ drop_cols [1] [Num 5; Num 2; Num 9] = num.
Proof.
  apply (reassemble_layout [1] [Num 2] 3 [[Num 5; Num 9]] [[Num 5; Num 2; Num 9]]).
  - constructor; [intros []|constructor].
  - repeat constructor; lia.
  - reflexivity.
  - left. reflexivity.
Defined.

(** ** The loop over the included groups and its bookkeeping *)

Lemma oversample_groups_n_overasmpled ps cc m df maj init groups st :
  n_overasmpled_groups_ (snd (oversample_groups ps cc m df maj init groups st))
  = n_overasmpled_groups_ st.
Proof.
  revert st. induction groups as [|[gv w] rest IH]; intros st; [reflexivity|].
  cbn [oversample_groups]. unfold bind, lift, set_ratio, partial_sample, ret.
  destruct (group_ratio maj init w) as [r|e]; [|reflexivity].
  match goal with
  | |- context [ps ?r0 ?a ?b] => destruct (ps r0 a b) as [o|e]
  end; [|reflexivity].
  destruct (reassemble cc gv m (fst o)) as [Xg|e]; [|reflexivity].
  match goal with
  | |- context [oversample_groups ps cc m df maj init rest ?st1] =>
      specialize (IH st1);
      destruct (oversample_groups ps cc m df maj init rest st1) as [[a|e] s2]
  end; exact IH.
Qed.

Lemma oversample_groups_aligned ps cc m df maj init groups st out st' :
  (forall r Xg yg Xr yr, ps r Xg yg = Ok (Xr, yr) -> length Xr = length yr) ->
  oversample_groups ps cc m df maj init groups st = (Ok out, st') ->
  length (fst out) = length (snd out).
Proof.
  intros Hps. revert st out st'.
  induction groups as [|[gv w] rest IH]; intros st out st' H.
  - injection H as <- _. reflexivity.
  - cbn [oversample_groups] in H. unfold bind, lift, set_ratio, partial_sample, ret in H.
    destruct (group_ratio maj init w) as [r|e]; [|discriminate].
    match type of H with
    | context [ps ?r0 ?a ?b] => destruct (ps r0 a b) as [[Xr yr]|e] eqn:Eps
    end; [|discriminate].
    cbn [fst snd] in H.
    destruct (reassemble cc gv m Xr) as [Xg|e] eqn:Ere; [|discriminate].
    match type of H with
    | context [oversample_groups ps cc m df maj init rest ?st1] =>
        destruct (oversample_groups ps cc m df maj init rest st1) as [[a|e] s2] eqn:Erest
    end; [|discriminate].
    injection H as <- _. cbn [fst snd]. rewrite !length_app.
    apply IH in Erest. rewrite Erest. f_equal.
    apply Hps in Eps. apply reassemble_ok_inv in Ere as (_ & -> & _).
    rewrite length_map. exact Eps.
Qed.

(** Line 137: after a successful call with categorical columns,
    [n_overasmpled_groups_] is the number of groups of [classes_stats]
    selected by [boolean_mask]; the loop does not change it. *)
Theorem n_overasmpled_groups_after_success ps cfg X y s Xo yo s' cc maj :
  categorical_cols cfg = Some cc ->
  majority_label_of (ratio_ s) = Ok maj ->
  _sample ps cfg X y s = (Ok (Xo, yo), s') ->
  n_overasmpled_groups_ s'
  = length (filter (fun '(_, st) => fst st)
              (classes_stats_of cc (combine (X_rows X) y) maj
                 (imbalance_ratio_threshold cfg) (k_neighbors cfg))).
Proof.
  intros Hcc Hmaj Hrun. rewrite sample_eq in Hrun.
  destruct (check_random_state (random_state cfg)); [|discriminate].
  rewrite Hcc in Hrun.
  destruct (negb (cols_ok _ (integer_cols cfg))); [discriminate|].
  destruct (negb (cols_ok _ (Some cc))); [discriminate|].
  destruct (negb (isdisjoint _ cc)); [discriminate|].
  destruct (Qle_bool _ 0); [discriminate|].
  destruct (resample_groups ps cc cfg X y s) as [[o|e] s2] eqn:Hrg; [|discriminate].
  injection Hrun as _ _ <-.
  rewrite resample_groups_eq, Hmaj in Hrg. cbv zeta in Hrg.
  destruct (classes_stats_of cc (combine (X_rows X) y) maj _ _) as [|c0 cs];
    [discriminate|].
  match type of Hrg with
  | context [oversample_groups ?a1 ?a2 ?a3 ?a4 ?a5 ?a6 ?a7 ?st] =>
      pose proof (oversample_groups_n_overasmpled a1 a2 a3 a4 a5 a6 a7 st) as Hn;
      destruct (oversample_groups a1 a2 a3 a4 a5 a6 a7 st) as [[o'|err] s3]
  end; [|discriminate].
  injection Hrg as _ <-.
  cbn [snd n_overasmpled_groups_] in Hn |- *. exact Hn.
Qed.

(** When [_partial_sample] returns as many labels as rows, so does
    [_sample]: [X_resampled] and [y_resampled] have the same length. *)
Theorem sample_rows_labels_aligned ps cfg X y s Xo yo s' :
  (forall r Xg yg Xr yr, ps r Xg yg = Ok (Xr, yr) -> length Xr = length yr) ->
  _sample ps cfg X y s = (Ok (Xo, yo), s') ->
  length Xo = length yo.
Proof.
  intros Hps Hrun. rewrite sample_eq in Hrun.
  destruct (check_random_state (random_state cfg)); [|discriminate].
  destruct (categorical_cols cfg) as [cc|].
  2:{ injection Hrun as H _. apply (Hps _ _ _ _ _ H). }
  destruct (negb (cols_ok _ (integer_cols cfg))); [discriminate|].
  destruct (negb (cols_ok _ (Some cc))); [discriminate|].
  destruct (negb (isdisjoint _ cc)); [discriminate|].
  destruct (Qle_bool _ 0); [discriminate|].
  destruct (resample_groups ps cc cfg X y s) as [[o'|e] s2] eqn:Hrg; [|discriminate].
  injection Hrun as <- <- _.
  rewrite resample_groups_eq in Hrg.
  destruct (majority_label_of (ratio_ s)) as [maj|err]; [|discriminate].
  cbv zeta in Hrg.
  destruct (classes_stats_of cc (combine (X_rows X) y) maj _ _) as [|c0 cs];
    [discriminate|].
  match type of Hrg with
  | context [oversample_groups ?a1 ?a2 ?a3 ?a4 ?a5 ?a6 ?a7 ?st] =>
      destruct (oversample_groups a1 a2 a3 a4 a5 a6 a7 st) as [[o|err] s3] eqn:Eo
  end; [|discriminate].
  injection Hrg as <- _. cbn [fst snd].
  unfold round_integer_cols. rewrite length_map, !length_app, !length_map.
  apply oversample_groups_aligned in Eo; [|exact Hps]. rewrite Eo. reflexivity.
Qed.

(** With categorical columns and no group above the threshold, the loop
    body never runs: the result of [_sample] and the state it leaves do not
    depend on [_partial_sample]. *)
Theorem no_included_group_sampler_unused ps ps' cfg X y s cc maj :
  categorical_cols cfg = Some cc ->
  majority_label_of (ratio_ s) = Ok maj ->
  filter (fun '(_, st) => fst st)
    (classes_stats_of cc (combine (X_rows X) y) maj
       (imbalance_ratio_threshold cfg) (k_neighbors cfg)) = [] ->
  _sample ps cfg X y s = _sample ps' cfg X y s.
Proof.
  intros Hcc Hmaj Hinc. rewrite !sample_eq.
  destruct (check_random_state (random_state cfg)); [|reflexivity].
  rewrite Hcc.
  destruct (negb (cols_ok _ (integer_cols cfg))); [reflexivity|].
  destruct (negb (cols_ok _ (Some cc))); [reflexivity|].
  destruct (negb (isdisjoint _ cc)); [reflexivity|].
  destruct (Qle_bool _ 0); [reflexivity|].
  rewrite !resample_groups_eq, Hmaj. cbv zeta.
  rewrite Hinc. reflexivity.
Qed.

Lemma n_overasmpled_groups_after_success_witness :
  n_overasmpled_groups_ {| ratio_ := [(0, 0); (1, 2)]; n_overasmpled_groups_ := 2 |}
  = length (filter (fun '(_, st) => fst st)
              (classes_stats_of [0] (combine (X_rows X_two_groups) y_two_groups) 0
                 (imbalance_ratio_threshold cfg_two_groups) (k_neighbors cfg_two_groups))).
Proof.
  apply (n_overasmpled_groups_after_success identity_sampler cfg_two_groups X_two_groups
           y_two_groups state_two_groups
           [[Num 0; Num 1]; [Num 0; Num 1]; [Num 0; Num 1];
            [Num 1; Num 1]; [Num 1; Num 1]; [Num 1; Num 1]]
           [0; 0; 1; 0; 0; 1]).
  - reflexivity.
  - reflexivity.
  - vm_compute. reflexivity.
Defined.

Lemma sample_rows_labels_aligned_witness :
  length [[Num 0; Num 1]; [Num 0; Num 1]; [Num 0; Num 1];
          [Num 1; Num 1]; [Num 1; Num 1]; [Num 1; Num 1]]
  = length [0; 0; 1; 0; 0; 1].
Proof.
  apply (sample_rows_labels_aligned paired_sampler cfg_two_groups X_two_groups y_two_groups
           state_two_groups _ _ {| ratio_ := [(0, 0); (1, 2)]; n_overasmpled_groups_ := 2 |}).
  - intros r Xg yg Xr yr H. unfold paired_sampler in H.
    injection H as <- <-. rewrite !length_map. reflexivity.
  - vm_compute. reflexivity.
Defined.

Lemma no_included_group_sampler_unused_witness :
  _sample failing_sampler cfg_one_cat X_half y_half state_two_groups
  = _sample identity_sampler cfg_one_cat X_half y_half state_two_groups.
Proof.
  apply (no_included_group_sampler_unused failing_sampler identity_sampler cfg_one_cat
           X_half y_half state_two_groups [0] 0).
  - reflexivity.
  - reflexivity.
  - vm_compute. reflexivity.
Defined.

(** ** Integer columns *)

Lemma round_half_even_Z z : round_half_even (inject_Z z) = z.
Proof.
  unfold round_half_even. rewrite Qfloor_Z.
  replace (Qltb (inject_Z z - inject_Z z) (1 # 2)) with true; [reflexivity|].
  symmetry. apply Qltb_iff. lra.
Qed.

Lemma astype_int_idem z : astype_int (astype_int z) = astype_int z.
Proof.
  unfold astype_int, int64_min.
  destruct ((- 2 ^ 63 <=? z) && (z <? 2 ^ 63)) eqn:E; rewrite ?E; [reflexivity|].
  reflexivity.
Qed.

Lemma np_round_astype_int_idem c :
  np_round_astype_int (np_round_astype_int c) = np_round_astype_int c.
Proof.
  unfold np_round_astype_int, astype_int_cell, np_round.
  destruct c as [q|].
  - rewrite Qfloor_Z, round_half_even_Z, Qfloor_Z, astype_int_idem. reflexivity.
  - rewrite round_half_even_Z, Qfloor_Z. reflexivity.
Qed.

Lemma round_row_idem ic j row :
  round_row ic j (round_row ic j row) = round_row ic j row.
Proof.
  revert j. induction row as [|c row IH]; intros j; [reflexivity|].
  cbn [round_row]. rewrite IH.
  destruct (mem_col j ic); [rewrite np_round_astype_int_idem|]; reflexivity.
Qed.

(** Line 185 is idempotent: converting the integer columns of its own
    output again changes nothing, since they already hold int64 values. *)
Theorem round_integer_cols_idempotent ic (Xr : list (list cell)) :
  round_integer_cols ic (round_integer_cols ic Xr) = round_integer_cols ic Xr.
Proof.
  unfold round_integer_cols. rewrite map_map.
  apply map_ext. intros row. apply round_row_idem.
Qed.

(** Line 185 keeps the shape of [X_resampled] and leaves every cell outside
    [integer_cols] as it was. *)
Theorem round_integer_cols_other_cells ic (Xr : list (list cell)) i row j :
  nth_error Xr i = Some row -> ~ In (Z.of_nat j) ic ->
  length (round_integer_cols ic Xr) = length Xr
  /\ exists row', nth_error (round_integer_cols ic Xr) i = Some row'
                  /\ length row' = length row
                  /\ nth_error row' j = nth_error row j.
Proof.
  intros Hrow Hj. unfold round_integer_cols.
  split; [apply length_map|].
  exists (round_row ic 0 row). split; [rewrite nth_error_map, Hrow; reflexivity|].
  split.
  - clear Hrow Hj. generalize 0. induction row as [|c row IH]; intros j0;
      [reflexivity|]. cbn [round_row length]. rewrite IH. reflexivity.
  - rewrite nth_error_round_row, Z.add_0_l.
    replace (mem_col (Z.of_nat j) ic) with false.
    + destruct (nth_error row j); reflexivity.
    + symmetry. destruct (mem_col (Z.of_nat j) ic) eqn:E; [|reflexivity].
      exfalso. apply Hj, mem_col_In, E.
Qed.

Lemma round_integer_cols_other_cells_witness :
  length (round_integer_cols [1] [[Num (1 # 3); Num (5 # 2)]]) = length [[Num (1 # 3); Num (5 # 2)]]
  /\ exists row', nth_error (round_integer_cols [1] [[Num (1 # 3); Num (5 # 2)]]) 0 = Some row'
                  /\ length row' = length [Num (1 # 3); Num (5 # 2)]
                  /\ nth_error row' 0 = nth_error [Num (1 # 3); Num (5 # 2)] 0.
Proof.
  apply (round_integer_cols_other_cells [1] [[Num (1 # 3); Num (5 # 2)]] 0
           [Num (1 # 3); Num (5 # 2)] 0).
  - reflexivity.
  - simpl. intros [H|[]]. discriminate.
Defined.

(** ** Grouping by the categorical columns *)

Lemma group_keys_fold_sound cc (df : list df_row) :
  forall acc k,
  In k (fold_left (fun acc '(row, _) =>
                     let k := row_key cc row in
                     if existsb is_nan k || existsb (key_eqb k) acc then acc
                     else acc ++ [k]) df acc) ->
  In k acc \/ exists row lab, In (row, lab) df /\ row_key cc row = k.
Proof.
  induction df as [|[row lab] df IH]; simpl; intros acc k Hk; [left; exact Hk|].
  destruct (IH _ _ Hk) as [Hacc|(row' & lab' & Hin & Hkey)].
  - destruct (existsb is_nan (row_key cc row) || existsb (key_eqb (row_key cc row)) acc).
    + left. exact Hacc.
    + apply in_app_or in Hacc as [Hacc|[<-|[]]]; [left; exact Hacc|].
      right. exists row, lab. auto.
  - right. exists row', lab'. auto.
Qed.

(** Every group of [df.groupby(categorical_cols)] that line 161 selects
    with [pd.merge] has at least one row of [df], and its key holds no NaN:
    [_partial_sample] is never called on an empty group. *)
Theorem groups_nonempty cc (df : list df_row) k :
  In k (group_keys cc df) ->
  existsb is_nan k = false /\ merge_rows cc df (key_eqb k) <> [].
Proof.
  intros Hk. split.
  - destruct (group_keys_props cc df) as (_ & Hn & _).
    rewrite Forall_forall in Hn. apply Hn, Hk.
  - unfold group_keys in Hk.
    destruct (group_keys_fold_sound cc df [] k Hk) as [[]|(row & lab & Hin & Hkey)].
    unfold merge_rows. intros Hnil.
    assert (Hf : In (row, lab) (filter (fun '(row, _) => key_eqb k (row_key cc row)) df)).
    { apply filter_In. split; [exact Hin|]. rewrite Hkey. apply key_eqb_refl. }
    rewrite Hnil in Hf. destruct Hf.
Qed.

Lemma groups_nonempty_witness :
  existsb is_nan [Num 1] = false
  /\ merge_rows [0] [([Num 0; Num 5], 0); ([Num 1; Num 6], 1)] (key_eqb [Num 1]) <> [].
Proof.
  apply groups_nonempty. vm_compute. auto.
Defined.

(** ** Labels of the result *)

Lemma merge_rows_incl cc (df : list df_row) f :
  incl (map snd (merge_rows cc df f)) (map snd df).
Proof.
  intros l Hl. apply in_map_iff in Hl as [[row lab] [<- Hin]].
  unfold merge_rows in Hin. apply filter_In in Hin as [Hin _].
  apply in_map_iff. exists (row, lab). auto.
Qed.

Lemma oversample_groups_labels ps cc m df maj init groups st out st' :
  (forall r Xg yg Xr yr, ps r Xg yg = Ok (Xr, yr) -> incl yr yg) ->
  oversample_groups ps cc m df maj init groups st = (Ok out, st') ->
  incl (snd out) (map snd df).
Proof.
  intros Hps. revert st out st'.
  induction groups as [|[gv w] rest IH]; intros st out st' H.
  - injection H as <- _. intros l [].
  - cbn [oversample_groups] in H. unfold bind, lift, set_ratio, partial_sample, ret in H.
    destruct (group_ratio maj init w) as [r|e]; [|discriminate].
    match type of H with
    | context [ps ?r0 ?a ?b] => destruct (ps r0 a b) as [[Xr yr]|e] eqn:Eps
    end; [|discriminate].
    cbn [fst snd] in H.
    destruct (reassemble cc gv m Xr) as [Xg|e]; [|discriminate].
    match type of H with
    | context [oversample_groups ps cc m df maj init rest ?st1] =>
        destruct (oversample_groups ps cc m df maj init rest st1) as [[a|e] s2] eqn:Erest
    end; [|discriminate].
    injection H as <- _. cbn [snd]. apply incl_app.
    + apply Hps in Eps. eapply incl_tran; [exact Eps|].
      apply merge_rows_incl.
    + apply IH in Erest. exact Erest.
Qed.

Lemma combine_snd_incl {A B : Type} (l : list A) (l' : list B) :
  incl (map snd (combine l l')) l'.
Proof.
  intros b Hb. apply in_map_iff in Hb as [[a b'] [<- Hin]].
  apply in_combine_r in Hin. exact Hin.
Qed.

(** When [_partial_sample] only returns labels it was given, every label
    of [y_resampled] is a label of the input [y]: the labels come from the
    groups' samples and from the excluded rows, both drawn from [df]. *)
Theorem sample_labels_from_input ps cfg X y s Xo yo s' :
  (forall r Xg yg Xr yr, ps r Xg yg = Ok (Xr, yr) -> incl yr yg) ->
  _sample ps cfg X y s = (Ok (Xo, yo), s') ->
  incl yo y.
Proof.
  intros Hps Hrun. rewrite sample_eq in Hrun.
  destruct (check_random_state (random_state cfg)); [|discriminate].
  destruct (categorical_cols cfg) as [cc|].
  2:{ injection Hrun as H _. apply (Hps _ _ _ _ _ H). }
  destruct (negb (cols_ok _ (integer_cols cfg))); [discriminate|].
  destruct (negb (cols_ok _ (Some cc))); [discriminate|].
  destruct (negb (isdisjoint _ cc)); [discriminate|].
  destruct (Qle_bool _ 0); [discriminate|].
  destruct (resample_groups ps cc cfg X y s) as [[o'|e] s2] eqn:Hrg; [|discriminate].
  injection Hrun as _ <- _.
  rewrite resample_groups_eq in Hrg.
  destruct (majority_label_of (ratio_ s)) as [maj|err]; [|discriminate].
  cbv zeta in Hrg.
  destruct (classes_stats_of cc (combine (X_rows X) y) maj _ _) as [|c0 cs];
    [discriminate|].
  match type of Hrg with
  | context [oversample_groups ?a1 ?a2 ?a3 ?a4 ?a5 ?a6 ?a7 ?st] =>
      destruct (oversample_groups a1 a2 a3 a4 a5 a6 a7 st) as [[o|err] s3] eqn:Eo
  end; [|discriminate].
  injection Hrg as <- _. cbn [snd].
  apply incl_app.
  - apply oversample_groups_labels in Eo; [|exact Hps].
    eapply incl_tran; [exact Eo|]. apply combine_snd_incl.
  - unfold excluded_rows. eapply incl_tran; [apply merge_rows_incl|].
    apply combine_snd_incl.
Qed.

Lemma sample_labels_from_input_witness :
  incl [0; 0; 1; 0; 0; 1] y_two_groups.
Proof.
  apply (sample_labels_from_input identity_sampler cfg_two_groups X_two_groups y_two_groups
           state_two_groups
           [[Num 0; Num 1]; [Num 0; Num 1]; [Num 0; Num 1];
            [Num 1; Num 1]; [Num 1; Num 1]; [Num 1; Num 1]]
           _ {| ratio_ := [(0, 0); (1, 2)]; n_overasmpled_groups_ := 2 |}).
  - intros r Xg yg Xr yr H. unfold identity_sampler in H.
    injection H as _ <-. apply incl_refl.
  - vm_compute. reflexivity.
Defined.
